(** * Tic-tac-toe with move history (src/App.js)

    A shallow embedding of the game logic of the React tutorial component:
    [calculateWinner], the click handler of [Board], and the [history] /
    [currentMove] state of [Game] with [handlePlay] and [jumpTo].

    Boards are JavaScript arrays living in an object store; [history] holds
    references to them.  The store is explicit so that copying
    ([squares.slice()]) and in-place assignment ([nextSquares[i] = ...]) keep
    their meaning. *)

From stdpp Require Import base numbers option list gmap.
From stdpp Require Import strings pretty.

Local Open Scope Z_scope.

(** ** JavaScript values held by a square *)

(** A square holds ['X'], ['O'] or [null] (comment at line 23); reading past
    the end of an array, or a hole, gives [undefined]. *)
Inductive value := Null | Undefined | X | O.

#[global] Instance value_eq_dec : EqDecision value.
Proof. solve_decision. Defined.

(** ToBoolean: the two strings are non-empty, hence truthy; [null] and
    [undefined] are falsy. *)
Definition truthy (v : value) : bool :=
  match v with
  | X | O => true
  | Null | Undefined => false
  end.

(** [a === b] on these values. *)
Definition strict_eq (a b : value) : bool := bool_decide (a = b).

(** ** Arrays *)

(** An array has its indexed elements and, as any object, further own
    properties.  A key is an array index when it is an integer in
    [0, 2^32 - 2]; any other integer key names an ordinary property.  A hole
    is kept as [Undefined], which is what reading it yields. *)
Record jsarray := JSArray {
  elems : list value;
  props : gmap Z value
}.

Definition is_index (i : Z) : bool := (0 <=? i) && (i <? 2 ^ 32 - 1).

(** [a[i]] *)
Definition read (a : jsarray) (i : Z) : value :=
  if is_index i
  then default Undefined (elems a !! Z.to_nat i)
  else default Undefined (props a !! i).

(** [a[i] = v]: inside the array the element is replaced; at an index past
    the end the array grows to length [i + 1], with holes in between; at
    a key that is no array index a property is set and the length stays. *)
Definition write (a : jsarray) (i : Z) (v : value) : jsarray :=
  if is_index i then
    let n := Z.to_nat i in
    if decide (n < length (elems a))%nat
    then {| elems := <[n := v]> (elems a); props := props a |}
    else {| elems := elems a ++ replicate (n - length (elems a)) Undefined ++ [v];
            props := props a |}
  else {| elems := elems a; props := <[i := v]> (props a) |}.

(** [a.slice()]: a new array with the indexed elements only. *)
Definition slice (a : jsarray) : jsarray :=
  {| elems := elems a; props := ∅ |}.

(** [Array(9).fill(null)] *)
Definition emptyBoard : jsarray :=
  {| elems := replicate 9 Null; props := ∅ |}.

(** [l.slice(0, e)] on a list: a negative [e] counts from the end, and the
    bound is clamped to the length. *)
Definition slice_to {A} (l : list A) (e : Z) : list A :=
  let len := Z.of_nat (length l) in
  let k := if e <? 0 then Z.max (len + e) 0 else Z.min e len in
  take (Z.to_nat k) l.

(** ** calculateWinner (lines 150-174) *)

Definition lines : list (Z * Z * Z) :=
  [ (0, 1, 2); (3, 4, 5); (6, 7, 8);
    (0, 3, 6); (1, 4, 7); (2, 5, 8);
    (0, 4, 8); (2, 4, 6) ].

(** The condition of line 169. *)
Definition line_hit (squares : jsarray) (l : Z * Z * Z) : bool :=
  let '(a, b, c) := l in
  truthy (read squares a)
  && strict_eq (read squares a) (read squares b)
  && strict_eq (read squares a) (read squares c).

(** The [for] loop of lines 165-172 over the lines still to visit, and the
    [return null] of line 173 when none is left. *)
Fixpoint winner_from (squares : jsarray) (ls : list (Z * Z * Z)) : value :=
  match ls with
  | [] => Null
  | l :: rest =>
      if line_hit squares l then read squares l.1.1
      else winner_from squares rest
  end.

Definition calculateWinner (squares : jsarray) : value :=
  winner_from squares lines.

(** ** The object store *)

(** A reference is the position of the object in the store; allocation
    appends, so a new reference is distinct from every live one. *)
Abbreviation loc := nat.
Abbreviation store := (list jsarray).

Definition alloc (σ : store) (a : jsarray) : loc * store :=
  (length σ, σ ++ [a]).

(** [r[i] = v] through the reference [r]: the object is updated in place,
    for every holder of [r]. *)
Definition assign (σ : store) (r : loc) (i : Z) (v : value) : store :=
  alter (λ a, write a i v) r σ.

(** ** Board: handleClick (lines 29-47) *)

(** [handleClick] returns nothing; what a call did is one of: the silent
    [return] of line 32, a call of [onPlay] (line 46), or a thrown
    TypeError.  The early return is labelled by the disjunct of line 31 that
    fired: [GameAlreadyWon] for [calculateWinner(squares)], [CellOccupied] for
    [squares[i]].  [IndexOutOfRange] completes the error taxonomy; no path of
    the handler yields it. *)
Inductive MoveError := GameAlreadyWon | CellOccupied | IndexOutOfRange.

Inductive outcome :=
  | Rejected (e : MoveError)
  | Played (nextSquares : loc)
  | TypeError.

#[global] Instance MoveError_eq_dec : EqDecision MoveError.
Proof. solve_decision. Defined.
#[global] Instance outcome_eq_dec : EqDecision outcome.
Proof. solve_decision. Defined.

(** ['X'] when [xIsNext], else ['O'] (lines 39-43 and 56). *)
Definition nextPlayer (xIsNext : bool) : value :=
  if xIsNext then X else O.

(** The handler under the props [xIsNext] and [squares] of its Board; a
    [squares] that is [undefined] is [None], and [calculateWinner] then throws
    on its first element access; a reference the store does not hold, which
    no run produces, is read the same way.  The result carries the store
    after the call. *)
Definition handleClick (xIsNext : bool) (squares : option loc)
    (σ : store) (i : Z) : outcome * store :=
  match squares ≫= (σ !!.) with
  | None => (TypeError, σ)
  | Some sq =>
      if truthy (calculateWinner sq) || truthy (read sq i)
      then (Rejected (if truthy (calculateWinner sq)
                      then GameAlreadyWon else CellOccupied), σ)
      else
        let '(nextSquares, σ1) := alloc σ (slice sq) in
        let σ2 := assign σ1 nextSquares i (nextPlayer xIsNext) in
        (Played nextSquares, σ2)
  end.

(** ** Game (lines 88-144) *)

Record game := Game {
  heap : store;
  history : list loc;
  currentMove : Z
}.

(** [useState([Array(9).fill(null)])] and [useState(0)] *)
Definition initial : game :=
  {| heap := [emptyBoard]; history := [0%nat]; currentMove := 0 |}.

(** [currentMove % 2 === 0]; [%] truncates towards zero. *)
Definition xIsNext (g : game) : bool := Z.rem (currentMove g) 2 =? 0.

(** [history[currentMove]]; [None] stands for [undefined]. *)
Definition currentSquares (g : game) : option loc :=
  if 0 <=? currentMove g then history g !! Z.to_nat (currentMove g) else None.

(** The board the cursor points at, read through the store. *)
Definition currentBoard (g : game) : option jsarray :=
  currentSquares g ≫= (heap g !!.).

(** The player whose turn it is, as the status line and the handler derive
    it from [xIsNext]. *)
Definition turnToMove (g : game) : value := nextPlayer (xIsNext g).

Definition handlePlay (g : game) (nextSquares : loc) : game :=
  let nextHistory := slice_to (history g) (currentMove g + 1) ++ [nextSquares] in
  {| heap := heap g;
     history := nextHistory;
     currentMove := Z.of_nat (length nextHistory) - 1 |}.

Definition jumpTo (g : game) (nextMove : Z) : game :=
  {| heap := heap g; history := history g; currentMove := nextMove |}.

(** A click on square [i] of the Board that Game renders (line 137):
    [xIsNext], [squares = currentSquares] and [onPlay = handlePlay]. *)
Definition attemptMove (g : game) (i : Z) : outcome * game :=
  match handleClick (xIsNext g) (currentSquares g) (heap g) i with
  | (Played nextSquares, σ) =>
      (Played nextSquares,
       handlePlay {| heap := σ; history := history g;
                     currentMove := currentMove g |} nextSquares)
  | (r, σ) =>
      (r, {| heap := σ; history := history g; currentMove := currentMove g |})
  end.

(** Playing a list of squares in turn, from [g]. *)
Definition play (g : game) (moves : list Z) : game :=
  foldl (λ g i, (attemptMove g i).2) g moves.

(** ** What is shown (lines 49-79 and 117-143) *)

(** A value as [+] appends it to a string. *)
Definition to_string (v : value) : string :=
  match v with
  | X => "X"
  | O => "O"
  | Null => "null"
  | Undefined => "undefined"
  end.

(** The status line of Board (lines 50-57). *)
Definition status (xIsNext : bool) (squares : jsarray) : string :=
  let winner := calculateWinner squares in
  if truthy winner
  then "Winner: " +:+ to_string winner
  else "Next player: " +:+ (if xIsNext then "X" else "O").

(** The squares Board renders, by the index their handler clicks
    (lines 64-76). *)
Definition squareIndices : list Z := [0; 1; 2; 3; 4; 5; 6; 7; 8].

(** What Board returns: the status line and the [value] prop of each of the
    nine Squares, in rendering order. *)
Record boardView := BoardView {
  statusLine : string;
  squareValues : list value
}.

(** Board under its props; with [squares] undefined, [calculateWinner]
    throws at line 50 and nothing is rendered. *)
Definition Board (xIsNext : bool) (squares : option jsarray) : option boardView :=
  match squares with
  | None => None
  | Some sq =>
      Some {| statusLine := status xIsNext sq;
              squareValues := read sq <$> squareIndices |}
  end.

(** A button of the move list: its [key], its text, and the argument its
    handler passes to [jumpTo] (lines 126-130). *)
Record moveButton := MoveButton {
  key : nat;
  description : string;
  jumpTarget : Z
}.

(** The list [moves] of Game: [history.map((squares, move) => ...)]
    (lines 119-131); a move number is appended in decimal. *)
Definition moveButtons (g : game) : list moveButton :=
  imap (λ move _,
          {| key := move;
             description := if decide (0 < move)%nat
                            then "Go to move #" +:+ pretty move
                            else "Go to game start";
             jumpTarget := Z.of_nat move |})
       (history g).

(** What Game renders: the board and the move list, or nothing when the
    board throws. *)
Definition render (g : game) : option (boardView * list moveButton) :=
  view ← Board (xIsNext g) (currentBoard g); Some (view, moveButtons g).

(** ** Vocabulary of the statements *)

(** A line is completed on a board when its three squares hold the same
    mark, ['X'] or ['O']. *)
Definition completed (b : jsarray) (l : Z * Z * Z) : Prop :=
  ∃ p, (p = X ∨ p = O) ∧ read b l.1.1 = p ∧ read b l.1.2 = p ∧ read b l.2 = p.

(** [l] is the first completed line of [b], at position [k] of [lines]. *)
Definition first_completed (b : jsarray) (k : nat) (l : Z * Z * Z) : Prop :=
  lines !! k = Some l ∧ completed b l ∧
  ∀ j l', (j < k)%nat → lines !! j = Some l' → ¬ completed b l'.

(** The empty board with the three squares of [l] set to [p]. *)
Definition board_with (l : Z * Z * Z) (p : value) : jsarray :=
  write (write (write emptyBoard l.1.1 p) l.1.2 p) l.2 p.

(** A board as the game builds them: nine squares, each ['X'], ['O'] or
    [null], and no further property. *)
Definition is_board (a : jsarray) : Prop :=
  length (elems a) = 9%nat ∧ props a = ∅ ∧ Forall (λ v, v ≠ Undefined) (elems a).

(** The player to move at snapshot [k]. *)
Definition turnAt (k : nat) : value :=
  nextPlayer (Z.rem (Z.of_nat k) 2 =? 0).

(** The position after X at 0, O at 1, X at 3, O at 4, X at 6. *)
Definition leftColumnGame : game := play initial [0; 1; 3; 4; 6].

(** The position after X at the centre and O in the top left corner. *)
Definition centreCornerGame : game := play initial [4; 0].

(** The state a played move leaves: the copy of [sq] with square [i] set
    is a new object, and the history is cut after the cursor and extended
    by it. *)
Definition played (g : game) (sq : jsarray) (i : Z) : game :=
  {| heap := heap g ++ [write (slice sq) i (turnToMove g)];
     history := take (S (Z.to_nat (currentMove g))) (history g) ++ [length (heap g)];
     currentMove := currentMove g + 1 |}.

(** The board of snapshot [k]. *)
Definition board_at (g : game) (k : nat) : option jsarray :=
  history g !! k ≫= (heap g !!.).

(** [next] is [prev] with one empty square set to [v]. *)
Definition one_move (v : value) (prev next : jsarray) : Prop :=
  ∃ i : nat, (i < 9)%nat ∧ elems prev !! i = Some Null ∧
             elems next = <[i := v]> (elems prev).

(** The states of a game: from the initial state, by a click on one of the
    nine squares the Board renders (lines 64-76), or by a jump. *)
Inductive reachable : game → Prop :=
  | reachable_initial : reachable initial
  | reachable_click g i :
      reachable g → 0 ≤ i ≤ 8 → reachable (attemptMove g i).2
  | reachable_jump g move :
      reachable g → reachable (jumpTo g move).

(** What every reachable history satisfies. *)
Record history_ok (g : game) : Prop := HistoryOk {
  ok_start : board_at g 0 = Some emptyBoard;
  ok_boards : ∀ k, (k < length (history g))%nat →
                ∃ a, board_at g k = Some a ∧ is_board a;
  ok_steps : ∀ k prev next,
      board_at g k = Some prev → board_at g (S k) = Some next →
      one_move (turnAt k) prev next
}.

(** The states the rendered page can be brought to: from the initial
    state, by a click on one of the nine squares, or on one of the move
    buttons shown. *)
Inductive ui_reachable : game → Prop :=
  | ui_initial : ui_reachable initial
  | ui_square g i :
      ui_reachable g → i ∈ squareIndices → ui_reachable (attemptMove g i).2
  | ui_button g b :
      ui_reachable g → b ∈ moveButtons g →
      ui_reachable (jumpTo g (jumpTarget b)).

(** The number of squares of a board that hold [p]. *)
Definition count_mark (p : value) (a : jsarray) : nat :=
  length (filter (λ v, v = p) (elems a)).

(** Exchanging the two marks, on a value and on an array. *)
Definition swap (v : value) : value :=
  match v with
  | X => O
  | O => X
  | Null => Null
  | Undefined => Undefined
  end.

Definition swap_marks (a : jsarray) : jsarray :=
  {| elems := swap <$> elems a; props := swap <$> props a |}.

(** No snapshot before the last one has a winner. *)
Definition no_early_winner (g : game) : Prop :=
  ∀ k a, (S k < length (history g))%nat → board_at g k = Some a →
         calculateWinner a = Null.

(** A drawn game: X O X / X O O / O X X. *)
Definition drawnGame : game := play initial [0; 1; 2; 4; 3; 5; 7; 6; 8].

Ltac solve_completed p := exists p; vm_compute; auto.

(** * Properties *)

(** ** calculateWinner *)

Section Winner.
Variable b : jsarray.
Implicit Types (l : Z * Z * Z) (ls : list (Z * Z * Z)).

Lemma line_hit_completed l : line_hit b l = true ↔ completed b l.
Proof.
  destruct l as [[x y] z]; unfold line_hit, completed, strict_eq; simpl.
  rewrite !andb_true_iff, !bool_decide_eq_true. split.
  - intros [[Ht Hy] Hz]. exists (read b x). repeat split; try congruence.
    destruct (read b x); simpl in Ht; auto; discriminate.
  - intros (p & Hp & -> & -> & ->). by destruct Hp as [-> | ->].
Qed.

Lemma line_hit_not_completed l : line_hit b l = false ↔ ¬ completed b l.
Proof. rewrite <- line_hit_completed. by destruct (line_hit b l). Qed.

Lemma winner_from_first ls k l :
  ls !! k = Some l → line_hit b l = true →
  (∀ j l', (j < k)%nat → ls !! j = Some l' → line_hit b l' = false) →
  winner_from b ls = read b l.1.1.
Proof.
  revert k. induction ls as [|l0 ls IH]; intros k Hk Hl Hbefore; [done|].
  destruct k as [|k]; simpl in *.
  - injection Hk as ->. by rewrite Hl.
  - rewrite (Hbefore 0%nat l0) by (done || lia).
    apply (IH k); [done..|]. intros j l' Hj. apply (Hbefore (S j)). lia.
Qed.

Lemma winner_from_none ls :
  (∀ l, l ∈ ls → line_hit b l = false) → winner_from b ls = Null.
Proof.
  induction ls as [|l0 ls IH]; intros Hnone; [done|]. simpl.
  rewrite Hnone by left. apply IH. intros l Hl. apply Hnone. by right.
Qed.

Lemma first_hit_exists ls l :
  l ∈ ls → line_hit b l = true →
  ∃ k l1, ls !! k = Some l1 ∧ line_hit b l1 = true ∧
    ∀ j l', (j < k)%nat → ls !! j = Some l' → line_hit b l' = false.
Proof.
  induction ls as [|l0 ls IH]; intros Hin Hl; [by apply elem_of_nil in Hin|].
  destruct (line_hit b l0) eqn:H0.
  - exists 0%nat, l0. repeat split; [done|]. intros; lia.
  - apply elem_of_cons in Hin as [-> | Hin]; [congruence|].
    destruct (IH Hin Hl) as (k & l1 & Hk & Hl1 & Hbefore).
    exists (S k), l1. repeat split; [done..|].
    intros [|j] l' Hj Hl'; simpl in Hl'; [congruence|].
    apply (Hbefore j); [lia | done].
Qed.

Lemma winner_from_mark ls :
  winner_from b ls = Null ∨ winner_from b ls = X ∨ winner_from b ls = O.
Proof.
  induction ls as [|[[x y] z] ls IH]; [by left|]. simpl.
  destruct (truthy (read b x)) eqn:Ht; simpl; [|done].
  destruct (strict_eq _ _ && strict_eq _ _); [|done].
  destruct (read b x); simpl in *; auto; discriminate.
Qed.

Lemma calculateWinner_first k l :
  first_completed b k l → calculateWinner b = read b l.1.1.
Proof.
  intros (Hk & Hl & Hbefore). apply (winner_from_first lines k); [done| |].
  - by apply line_hit_completed.
  - intros j l' Hj Hl'. apply line_hit_not_completed. eauto.
Qed.

Lemma calculateWinner_truthy :
  truthy (calculateWinner b) = false ↔ calculateWinner b = Null.
Proof.
  unfold calculateWinner.
  destruct (winner_from_mark lines) as [-> | [-> | ->]]; by split.
Qed.
End Winner.

Lemma first_completed_unique b k l k' l' :
  first_completed b k l → first_completed b k' l' → k' = k ∧ l' = l.
Proof.
  intros (Hk & Hl & Hb) (Hk' & Hl' & Hb').
  assert (k' = k) as ->.
  { destruct (Nat.lt_trichotomy k k') as [Hlt | [-> | Hlt]]; [|done|].
    - destruct (Hb' k l Hlt Hk Hl).
    - destruct (Hb k' l' Hlt Hk' Hl'). }
  split; congruence.
Qed.

Lemma first_completed_exists b l :
  l ∈ lines → completed b l → ∃ k l1, first_completed b k l1.
Proof.
  intros Hin Hl. apply line_hit_completed in Hl.
  destruct (first_hit_exists b lines l Hin Hl) as (k & l1 & Hk & Hl1 & Hbefore).
  exists k, l1. repeat split; [done | by apply line_hit_completed |].
  intros j l' Hj Hl'. apply line_hit_not_completed. eauto.
Qed.

(** C1: [calculateWinner] visits the eight lines in the order rows
    (0,1,2), (3,4,5), (6,7,8), columns (0,3,6), (1,4,7), (2,5,8), diagonals
    (0,4,8), (2,4,6); it returns the mark of the first line whose three
    squares hold the same mark, and [null] when no line is completed.  This
    holds for every array, the nine-square boards among them.  The empty
    board has no winner, and the empty board with one line set to X (to O)
    has winner X (O), for each of the eight lines. *)
Theorem calculateWinner_first_completed_line (b : jsarray) :
  lines = [ (0, 1, 2); (3, 4, 5); (6, 7, 8);
            (0, 3, 6); (1, 4, 7); (2, 5, 8);
            (0, 4, 8); (2, 4, 6) ] ∧
  (∀ k l, first_completed b k l →
     calculateWinner b = read b l.1.1 ∧
     (calculateWinner b = X ∨ calculateWinner b = O)) ∧
  ((∀ l, l ∈ lines → ¬ completed b l) → calculateWinner b = Null) ∧
  ((∃ k l, first_completed b k l) ∨ (∀ l, l ∈ lines → ¬ completed b l)) ∧
  calculateWinner emptyBoard = Null ∧
  (∀ l, l ∈ lines →
     calculateWinner (board_with l X) = X ∧
     calculateWinner (board_with l O) = O ∧
     ∀ p j, 0 ≤ j ≤ 8 →
       read (board_with l p) j =
         if bool_decide (j = l.1.1 ∨ j = l.1.2 ∨ j = l.2) then p else Null).
Proof.
  split; [reflexivity|]. split; [|split; [|split; [|split]]].
  - intros k l Hfirst. rewrite (calculateWinner_first b k l Hfirst).
    split; [done|]. destruct Hfirst as (_ & (p & Hp & -> & _) & _). tauto.
  - intros Hnone. apply winner_from_none. intros l Hl.
    apply line_hit_not_completed. auto.
  - destruct (decide (Exists (λ l, line_hit b l = true) lines)) as [Hex | Hno].
    + left. apply Exists_exists in Hex as (l & Hin & Hl).
      apply (first_completed_exists b l Hin). by apply line_hit_completed.
    + right. intros l Hin Hl. apply Hno, Exists_exists. exists l.
      split; [done | by apply line_hit_completed].
  - reflexivity.
  - intros l Hl.
    assert (Forall (λ l, calculateWinner (board_with l X) = X ∧
                         calculateWinner (board_with l O) = O ∧
                         ∀ p j, 0 ≤ j ≤ 8 →
                           read (board_with l p) j =
                             if bool_decide (j = l.1.1 ∨ j = l.1.2 ∨ j = l.2)
                             then p else Null) lines) as Hall.
    { unfold lines. repeat apply Forall_cons_2; try apply Forall_nil_2;
        (split; [reflexivity | split; [reflexivity |]]);
        intros p j Hj;
        assert (j = 0 ∨ j = 1 ∨ j = 2 ∨ j = 3 ∨ j = 4 ∨ j = 5 ∨ j = 6
                ∨ j = 7 ∨ j = 8) as Hcases by lia;
        destruct_or!; subst j; reflexivity. }
    rewrite Forall_forall in Hall. auto.
Qed.

(** The board X O _ / X O _ / X _ _ : its first completed line is the left
    column, at position 3. *)
Lemma calculateWinner_first_completed_line_witness :
  calculateWinner
    {| elems := [X; O; Null; X; O; Null; X; Null; Null]; props := ∅ |} = X.
Proof.
  pose (b := {| elems := [X; O; Null; X; O; Null; X; Null; Null]; props := ∅ |}).
  destruct (calculateWinner_first_completed_line b) as (_ & Hfirst & _).
  destruct (Hfirst 3%nat (0, 3, 6)) as [Hw _]; [|exact Hw].
  split; [reflexivity|]. split; [solve_completed X|].
  intros j l' Hj Hl' (p & Hp & H1 & H2 & H3).
  destruct j as [|[|[|j]]]; [..|lia]; injection Hl' as <-;
    vm_compute in H1, H2, H3; destruct Hp; congruence.
Defined.

(** C9: when several lines are completed on a board, also with different
    marks on them, as no legal play produces, [calculateWinner] returns the
    mark of the one that comes first in the order rows, columns, diagonals;
    that line is unique, so the result is determined. *)
Theorem calculateWinner_several_completed
    (b : jsarray) (k1 k2 : nat) (l1 l2 : Z * Z * Z) :
  k1 ≠ k2 →
  lines !! k1 = Some l1 → lines !! k2 = Some l2 →
  completed b l1 → completed b l2 →
  ∃ k l, first_completed b k l ∧ (k ≤ k1)%nat ∧ (k ≤ k2)%nat ∧
         calculateWinner b = read b l.1.1 ∧
         (∀ k' l', first_completed b k' l' → k' = k ∧ l' = l).
Proof.
  intros _ Hk1 Hk2 Hl1 Hl2.
  destruct (first_completed_exists b l1) as (k & l & Hfirst); [|done|].
  { eapply list_elem_of_lookup_2, Hk1. }
  exists k, l. split; [done|].
  pose proof Hfirst as (_ & _ & Hbefore).
  repeat split.
  - destruct (decide (k ≤ k1)%nat); [done|].
    destruct (Hbefore k1 l1); [lia | done..].
  - destruct (decide (k ≤ k2)%nat); [done|].
    destruct (Hbefore k2 l2); [lia | done..].
  - by apply (calculateWinner_first b k l).
  - by eapply first_completed_unique.
  - by eapply first_completed_unique.
Qed.

(** Top row O, middle row X: the top row comes first, the winner is O. *)
Lemma calculateWinner_several_completed_witness :
  calculateWinner
    {| elems := [O; O; O; X; X; X; Null; Null; Null]; props := ∅ |} = O.
Proof.
  pose (b := {| elems := [O; O; O; X; X; X; Null; Null; Null]; props := ∅ |}).
  destruct (calculateWinner_several_completed b 1 0 (3, 4, 5) (0, 1, 2))
    as (k & l & Hfirst & _ & Hk & Hw & _);
    [lia | reflexivity | reflexivity | solve_completed X | solve_completed O |].
  assert (k = 0%nat) as -> by lia.
  destruct Hfirst as (Hl & _). injection Hl as <-. exact Hw.
Defined.

(** ** Arrays and the store *)

Lemma read_slice a j : is_index j = true → read (slice a) j = read a j.
Proof. unfold read. by intros ->. Qed.

Lemma read_write_eq a i v : read (write a i v) i = v.
Proof.
  unfold read, write. destruct (is_index i) eqn:Hi.
  - case_decide; simpl.
    + by rewrite list_lookup_insert_eq.
    + rewrite lookup_app_r by lia. rewrite lookup_app_r; rewrite length_replicate.
      * by replace (_ - _ - _)%nat with 0%nat by lia.
      * lia.
  - simpl. by rewrite lookup_insert_eq.
Qed.

Lemma read_write_ne a i j v : j ≠ i → read (write a i v) j = read a j.
Proof.
  intros Hne. unfold read, write.
  destruct (is_index i) eqn:Hi, (is_index j) eqn:Hj; simpl; try done.
  - apply andb_true_iff in Hi as [Hi _], Hj as [Hj _].
    apply Z.leb_le in Hi, Hj.
    assert (Z.to_nat j ≠ Z.to_nat i) by lia.
    case_decide; simpl.
    + by rewrite list_lookup_insert_ne.
    + destruct (decide (Z.to_nat j < length (elems a))%nat).
      * by rewrite lookup_app_l.
      * rewrite (lookup_ge_None_2 (elems a)) by lia.
        rewrite lookup_app_r by lia.
        destruct (decide (Z.to_nat j < Z.to_nat i)%nat).
        -- rewrite lookup_app_l by (rewrite length_replicate; lia).
           rewrite lookup_replicate_2; [done | lia].
        -- rewrite lookup_ge_None_2; [done|].
           rewrite length_app, length_replicate. simpl. lia.
  - case_decide; done.
  - by rewrite lookup_insert_ne.
Qed.

Lemma alloc_assign σ a i v :
  assign (alloc σ a).2 (alloc σ a).1 i v = σ ++ [write a i v].
Proof.
  unfold assign, alloc; simpl.
  rewrite alter_app_r_alt by lia. by rewrite Nat.sub_diag.
Qed.

(** ** The click handler, case by case *)

Lemma currentSquares_Some g r :
  currentSquares g = Some r →
  0 ≤ currentMove g < Z.of_nat (length (history g)) ∧
  history g !! Z.to_nat (currentMove g) = Some r.
Proof.
  unfold currentSquares. destruct (0 <=? currentMove g) eqn:Hle; [|done].
  intros Hr. apply Z.leb_le in Hle. split; [|done].
  apply lookup_lt_Some in Hr. lia.
Qed.

Lemma slice_to_succ {A} (l : list A) (m : Z) :
  0 ≤ m < Z.of_nat (length l) →
  slice_to l (m + 1) = take (S (Z.to_nat m)) l.
Proof.
  intros Hm. unfold slice_to.
  destruct (m + 1 <? 0) eqn:Hneg; [apply Z.ltb_lt in Hneg; lia|].
  f_equal. lia.
Qed.

Lemma attemptMove_undefined g i :
  currentBoard g = None → attemptMove g i = (TypeError, g).
Proof.
  unfold currentBoard, attemptMove, handleClick. intros ->. by destruct g.
Qed.

Lemma attemptMove_won g sq i :
  currentBoard g = Some sq → truthy (calculateWinner sq) = true →
  attemptMove g i = (Rejected GameAlreadyWon, g).
Proof.
  unfold currentBoard, attemptMove, handleClick. intros -> ->. by destruct g.
Qed.

Lemma attemptMove_occupied g sq i :
  currentBoard g = Some sq → truthy (calculateWinner sq) = false →
  truthy (read sq i) = true →
  attemptMove g i = (Rejected CellOccupied, g).
Proof.
  unfold currentBoard, attemptMove, handleClick. intros -> -> ->. by destruct g.
Qed.

Lemma attemptMove_played g sq i :
  currentBoard g = Some sq → truthy (calculateWinner sq) = false →
  truthy (read sq i) = false →
  attemptMove g i = (Played (length (heap g)), played g sq i).
Proof.
  intros Hsq Hw Hi. unfold attemptMove, handleClick.
  change (currentSquares g ≫= (heap g !!.)) with (currentBoard g).
  rewrite Hsq, Hw, Hi. simpl.
  pose proof (alloc_assign (heap g) (slice sq) i (nextPlayer (xIsNext g))) as Hσ.
  simpl in Hσ. rewrite Hσ. unfold handlePlay, played; simpl.
  unfold currentBoard in Hsq.
  destruct (currentSquares g) as [r|] eqn:Hr; [|done].
  apply currentSquares_Some in Hr as [Hm _].
  rewrite (slice_to_succ _ _ Hm). f_equal. f_equal.
  rewrite length_app, length_take. cbn [length]. lia.
Qed.

Lemma attemptMove_Played_inv g i r g' :
  attemptMove g i = (Played r, g') →
  ∃ sq, currentBoard g = Some sq ∧ calculateWinner sq = Null ∧
        truthy (read sq i) = false ∧ r = length (heap g) ∧ g' = played g sq i.
Proof.
  intros Hmove. destruct (currentBoard g) as [sq|] eqn:Hsq.
  - destruct (truthy (calculateWinner sq)) eqn:Hw.
    { by rewrite (attemptMove_won g sq i) in Hmove. }
    destruct (truthy (read sq i)) eqn:Hi.
    { by rewrite (attemptMove_occupied g sq i) in Hmove. }
    rewrite (attemptMove_played g sq i) in Hmove by done.
    exists sq. apply calculateWinner_truthy in Hw. naive_solver.
  - by rewrite attemptMove_undefined in Hmove.
Qed.

Lemma read_slice_no_props a j : props a = ∅ → read (slice a) j = read a j.
Proof. destruct a as [es ps]; simpl. by intros ->. Qed.

Lemma nextPlayer_mark x : nextPlayer x = X ∨ nextPlayer x = O.
Proof. destruct x; auto. Qed.

Lemma write_board a i v :
  is_board a → 0 ≤ i ≤ 8 → v ≠ Undefined →
  is_board (write (slice a) i v) ∧
  elems (write (slice a) i v) = <[Z.to_nat i := v]> (elems a).
Proof.
  intros (Hlen & Hprops & Hall) Hi Hv. unfold write, slice; simpl.
  replace (is_index i) with true
    by (symmetry; apply andb_true_iff; split; [apply Z.leb_le | apply Z.ltb_lt]; lia).
  rewrite decide_True by lia. unfold is_board; simpl.
  rewrite length_insert. repeat split; [done|]. by apply Forall_insert.
Qed.

Lemma played_currentBoard g sq i :
  currentBoard g = Some sq →
  currentBoard (played g sq i) = Some (write (slice sq) i (turnToMove g)) ∧
  heap (played g sq i) !! length (heap g)
    = Some (write (slice sq) i (turnToMove g)).
Proof.
  intros Hsq. unfold currentBoard in Hsq.
  destruct (currentSquares g) as [r|] eqn:Hr; [|done].
  apply currentSquares_Some in Hr as [Hm _].
  assert (heap (played g sq i) !! length (heap g)
          = Some (write (slice sq) i (turnToMove g))) as Hnew.
  { simpl. rewrite lookup_app_r by lia. by rewrite Nat.sub_diag. }
  split; [|done]. unfold currentBoard, currentSquares; simpl.
  replace (0 <=? currentMove g + 1) with true by (symmetry; apply Z.leb_le; lia).
  rewrite lookup_app_r by (rewrite length_take; lia).
  rewrite length_take.
  replace (Z.to_nat (currentMove g + 1) - _)%nat with 0%nat by lia.
  simpl. simpl in Hnew. exact Hnew.
Qed.

(** ** attemptMove *)

(** C10: a successful move leaves every object of the store as it was, the
    boards of the history among them: the new board is a new object, and
    the entries 0 to cursor of the history still refer to the same boards,
    with the same contents. *)
Theorem attemptMove_keeps_snapshots (g g' : game) (i : Z) (r : loc) :
  attemptMove g i = (Played r, g') →
  heap g !! r = None ∧
  (∀ l a, heap g !! l = Some a → heap g' !! l = Some a) ∧
  (∀ k l a, Z.of_nat k ≤ currentMove g →
     history g !! k = Some l → heap g !! l = Some a →
     history g' !! k = Some l ∧ heap g' !! l = Some a).
Proof.
  intros Hmove.
  apply attemptMove_Played_inv in Hmove as (sq & Hsq & _ & _ & -> & ->).
  assert (∀ l a, heap g !! l = Some a → heap (played g sq i) !! l = Some a)
    as Hframe.
  { intros l a Hl. simpl. by apply lookup_app_l_Some. }
  split; [apply lookup_ge_None_2; lia|]. split; [done|].
  intros k l a Hk Hhist Hl. split; [|by apply Hframe].
  simpl. apply lookup_app_l_Some. rewrite lookup_take_lt by lia. done.
Qed.

(** Back at the start after two moves, a move at the centre: the initial
    board, entry 0, is kept. *)
Lemma attemptMove_keeps_snapshots_witness :
  let g := jumpTo (play initial [0; 1]) 0 in
  let g' := (attemptMove g 4).2 in
  history g' !! 0%nat = Some 0%nat ∧ heap g' !! 0%nat = Some emptyBoard.
Proof.
  apply (attemptMove_keeps_snapshots
           (jumpTo (play initial [0; 1]) 0)
           (attemptMove (jumpTo (play initial [0; 1]) 0) 4).2 4 3%nat);
    [reflexivity | simpl; lia | reflexivity | reflexivity].
Defined.

(** C3, the claim as stated fails: on the new game, index 9 is outside
    [0,8], the board has no winner and reading square 9 gives [undefined];
    the call is not rejected, it plays: the new current board has ten
    elements, the last one X.  Index -1 is played too, as a property of the
    new array. *)
Lemma attemptMove_no_range_check :
  ¬ (0 ≤ 9 ≤ 8) ∧
  currentBoard initial = Some emptyBoard ∧
  calculateWinner emptyBoard = Null ∧
  read emptyBoard 9 = Undefined ∧
  (attemptMove initial 9).1 = Played 1%nat ∧
  (attemptMove initial 9).1 ≠ Rejected IndexOutOfRange ∧
  currentBoard (attemptMove initial 9).2
    = Some {| elems := replicate 9 Null ++ [X]; props := ∅ |} ∧
  history (attemptMove initial 9).2 = [0; 1]%nat ∧
  currentMove (attemptMove initial 9).2 = 1 ∧
  (attemptMove initial (-1)).1 = Played 1%nat ∧
  currentBoard (attemptMove initial (-1)).2
    = Some {| elems := replicate 9 Null; props := {[ -1 := X ]} |}.
Proof.
  split; [lia|]. repeat split; try reflexivity. discriminate.
Qed.

(** C6: on a board that has a winner, a click on any square, the empty
    ones included, is rejected with [GameAlreadyWon] and changes nothing.
    After X at 0, O at 1, X at 3, O at 4, X at 6 the current board is
    X O _ / X O _ / X _ _, its winner is X, and every further click is
    rejected this way. *)
Theorem attemptMove_after_win :
  (∀ g sq i, currentBoard g = Some sq → calculateWinner sq ≠ Null →
     attemptMove g i = (Rejected GameAlreadyWon, g)) ∧
  currentBoard leftColumnGame
    = Some {| elems := [X; O; Null; X; O; Null; X; Null; Null]; props := ∅ |} ∧
  (∀ sq, currentBoard leftColumnGame = Some sq → calculateWinner sq = X) ∧
  (∀ i, attemptMove leftColumnGame i = (Rejected GameAlreadyWon, leftColumnGame)).
Proof.
  assert (∀ g sq i, currentBoard g = Some sq → calculateWinner sq ≠ Null →
            attemptMove g i = (Rejected GameAlreadyWon, g)) as Hwon.
  { intros g sq i Hsq Hw. apply (attemptMove_won g sq i Hsq).
    destruct (truthy (calculateWinner sq)) eqn:Ht; [done|].
    by apply calculateWinner_truthy in Ht. }
  split; [done|]. split; [reflexivity|]. split.
  - intros sq Hsq. vm_compute in Hsq. by injection Hsq as <-.
  - intros i. eapply Hwon; [reflexivity | by vm_compute].
Qed.

(** Square 2, empty, after the left column is X's. *)
Lemma attemptMove_after_win_witness :
  attemptMove leftColumnGame 2 = (Rejected GameAlreadyWon, leftColumnGame).
Proof.
  apply (proj1 attemptMove_after_win leftColumnGame
           {| elems := [X; O; Null; X; O; Null; X; Null; Null]; props := ∅ |} 2);
    [reflexivity | by vm_compute].
Defined.

(** C7 (as the code has it): a click on an occupied square is rejected and
    leaves the store, the history and the cursor as they were; the rejection
    is [CellOccupied] when the board has no winner, and [GameAlreadyWon],
    from the first test, when it has one. *)
Theorem attemptMove_occupied_square (g : game) (sq : jsarray) (i : Z) :
  currentBoard g = Some sq →
  truthy (read sq i) = true →
  (attemptMove g i).2 = g ∧
  (calculateWinner sq = Null → attemptMove g i = (Rejected CellOccupied, g)) ∧
  (calculateWinner sq ≠ Null → attemptMove g i = (Rejected GameAlreadyWon, g)).
Proof.
  intros Hsq Hi. destruct (truthy (calculateWinner sq)) eqn:Hw.
  - rewrite (attemptMove_won g sq i Hsq Hw).
    split; [done|]. split; [|done].
    intros Hnull. by rewrite Hnull in Hw.
  - rewrite (attemptMove_occupied g sq i Hsq Hw Hi).
    split; [done|]. split; [done|].
    intros Hnot. by apply calculateWinner_truthy in Hw.
Qed.

(** Square 0 again after X took it. *)
Lemma attemptMove_occupied_square_witness :
  attemptMove (play initial [0]) 0 = (Rejected CellOccupied, play initial [0]).
Proof.
  destruct (attemptMove_occupied_square (play initial [0])
              {| elems := [X; Null; Null; Null; Null; Null; Null; Null; Null];
                 props := ∅ |} 0) as (_ & Hocc & _);
    [reflexivity | reflexivity |].
  apply Hocc. reflexivity.
Defined.

(** C7, the claim as stated fails: after X at 0, O at 1, X at 3, O at 4,
    X at 6, square 0 is occupied, and a click on it is rejected with
    [GameAlreadyWon], not [CellOccupied]. *)
Lemma attemptMove_occupied_after_win :
  (∃ sq, currentBoard leftColumnGame = Some sq ∧ read sq 0 = X) ∧
  attemptMove leftColumnGame 0 = (Rejected GameAlreadyWon, leftColumnGame) ∧
  (attemptMove leftColumnGame 0).1 ≠ Rejected CellOccupied.
Proof.
  split; [eexists; split; reflexivity|]. split; [reflexivity | discriminate].
Qed.

Lemma rem_2_even (m : Z) : (Z.rem m 2 =? 0) = Z.even m.
Proof.
  destruct (Z.even m) eqn:He.
  - apply Z.eqb_eq, Z.rem_mod_eq_0; [lia|].
    apply Z.even_spec in He as [k ->]. rewrite Z.mul_comm. by apply Z.mod_mul.
  - apply Z.eqb_neq. intros Hrem. apply Z.rem_mod_eq_0 in Hrem; [|lia].
    assert (Z.even m = true) as He'; [|congruence].
    apply Z.even_spec. exists (m / 2). pose proof (Z.div_mod m 2). lia.
Qed.

Lemma even_of_nat (k : nat) : Z.even (Z.of_nat k) = Nat.even k.
Proof.
  destruct (Nat.even k) eqn:He.
  - apply Nat.even_spec in He as [m ->]. apply Z.even_spec.
    exists (Z.of_nat m). lia.
  - assert (Nat.odd k = true) as Ho by (by rewrite <- Nat.negb_even, He).
    apply Nat.odd_spec in Ho as [m ->]. rewrite <- Z.negb_odd.
    apply negb_false_iff, Z.odd_spec. exists (Z.of_nat m). lia.
Qed.

(** C8: the player to move is X exactly when the cursor is even and O
    exactly when it is odd; it is a function of the cursor alone.  On the
    new game a click on square 4 puts X there, moves the cursor to 1, and O
    is then to move. *)
Theorem turnToMove_parity (g : game) :
  (turnToMove g = X ↔ Z.even (currentMove g) = true) ∧
  (turnToMove g = O ↔ Z.odd (currentMove g) = true) ∧
  (∀ g', currentMove g' = currentMove g → turnToMove g' = turnToMove g) ∧
  turnToMove initial = X ∧
  (attemptMove initial 4).1 = Played 1%nat ∧
  currentBoard (attemptMove initial 4).2
    = Some {| elems := [Null; Null; Null; Null; X; Null; Null; Null; Null];
              props := ∅ |} ∧
  currentMove (attemptMove initial 4).2 = 1 ∧
  turnToMove (attemptMove initial 4).2 = O.
Proof.
  assert (xIsNext g = Z.even (currentMove g)) as Hx.
  { apply rem_2_even. }
  unfold turnToMove at 1 2. rewrite Hx, <- Z.negb_even.
  repeat split; try reflexivity;
    try (destruct (Z.even (currentMove g)); simpl; congruence).
  intros g' Hg'. unfold turnToMove, xIsNext. by rewrite Hg'.
Qed.

(** ** jumpTo *)

(** C4 (as the code has it): [jumpTo] makes no range test and reports no
    error; for every integer [move] the cursor becomes [move], and the
    history and its boards stay as they are, also over any sequence of
    jumps. *)
Theorem jumpTo_moves_cursor_only (g : game) (move : Z) :
  currentMove (jumpTo g move) = move ∧
  history (jumpTo g move) = history g ∧
  heap (jumpTo g move) = heap g ∧
  (∀ moves, history (foldl jumpTo g moves) = history g ∧
            heap (foldl jumpTo g moves) = heap g) ∧
  (0 ≤ move < Z.of_nat (length (history g)) →
     currentSquares (jumpTo g move) = history g !! Z.to_nat move ∧
     is_Some (currentSquares (jumpTo g move))).
Proof.
  repeat split; try reflexivity.
  - revert g. induction moves as [|m moves IH]; intros g; [done|].
    simpl. by rewrite IH.
  - revert g. induction moves as [|m moves IH]; intros g; [done|].
    simpl. by rewrite IH.
  - unfold currentSquares; simpl.
    by replace (0 <=? move) with true by (symmetry; apply Z.leb_le; lia).
  - unfold currentSquares; simpl.
    replace (0 <=? move) with true by (symmetry; apply Z.leb_le; lia).
    apply lookup_lt_is_Some. lia.
Qed.

(** Back to move 1 after three moves: the four boards stay. *)
Lemma jumpTo_moves_cursor_only_witness :
  currentSquares (jumpTo (play initial [0; 1; 2]) 1) = Some 1%nat ∧
  length (history (jumpTo (play initial [0; 1; 2]) 1)) = 4%nat.
Proof.
  destruct (jumpTo_moves_cursor_only (play initial [0; 1; 2]) 1)
    as (_ & Hhist & _ & _ & Hcur).
  split; [|by rewrite Hhist].
  destruct Hcur as [-> _]; [vm_compute; split; congruence | reflexivity].
Defined.

(** C4, the claim as stated fails: with a history of length 3, [jumpTo 5]
    is out of range, yet it sets the cursor to 5; the state is changed, and
    no board is current any more. *)
Lemma jumpTo_no_range_check :
  length (history (play initial [0; 1])) = 3%nat ∧
  currentMove (play initial [0; 1]) = 2 ∧
  currentMove (jumpTo (play initial [0; 1]) 5) = 5 ∧
  jumpTo (play initial [0; 1]) 5 ≠ play initial [0; 1] ∧
  currentSquares (jumpTo (play initial [0; 1]) 5) = None.
Proof.
  repeat split; try reflexivity. intros Heq.
  apply (f_equal currentMove) in Heq. vm_compute in Heq. discriminate.
Qed.

(** ** The history of a game *)

Section Played.
Variables (g : game) (sq : jsarray) (i : Z).
Hypothesis Hsq : currentBoard g = Some sq.

#[local] Abbreviation n := (Z.to_nat (currentMove g)).

Lemma cursor_in_range : 0 ≤ currentMove g ∧ (n < length (history g))%nat.
Proof.
  unfold currentBoard in Hsq.
  destruct (currentSquares g) as [r|] eqn:Hr; [|done].
  apply currentSquares_Some in Hr as [Hm _]. lia.
Qed.

Lemma board_at_cursor : board_at g n = Some sq.
Proof.
  destruct cursor_in_range as [Hm _]. rewrite <- Hsq.
  unfold currentBoard, currentSquares, board_at.
  by replace (0 <=? currentMove g) with true by (symmetry; by apply Z.leb_le).
Qed.

Lemma length_history_played : length (history (played g sq i)) = S (S n).
Proof.
  destruct cursor_in_range as [_ Hn]. simpl.
  rewrite length_app, length_take. cbn [length]. lia.
Qed.

Lemma board_at_played_old k a :
  (k ≤ n)%nat → board_at g k = Some a → board_at (played g sq i) k = Some a.
Proof.
  intros Hk. unfold board_at; simpl.
  destruct cursor_in_range as [_ Hn].
  rewrite lookup_app_l by (rewrite length_take; lia).
  rewrite lookup_take_lt by lia.
  destruct (history g !! k) as [l|]; simpl; [|done].
  apply lookup_app_l_Some.
Qed.

Lemma board_at_played_new :
  board_at (played g sq i) (S n) = Some (write (slice sq) i (turnToMove g)).
Proof.
  destruct cursor_in_range as [_ Hn]. unfold board_at; simpl.
  rewrite lookup_app_r by (rewrite length_take; lia).
  rewrite length_take. replace (S n - _)%nat with 0%nat by lia. simpl.
  rewrite lookup_app_r by lia. by rewrite Nat.sub_diag.
Qed.

Lemma turnToMove_turnAt : turnToMove g = turnAt n.
Proof.
  destruct cursor_in_range as [Hm _].
  unfold turnToMove, turnAt, xIsNext. by rewrite Z2Nat.id.
Qed.
End Played.

(** ** The played move, on contents *)

Lemma turnToMove_mark g :
  turnToMove g = if Z.even (currentMove g) then X else O.
Proof. unfold turnToMove, xIsNext. by rewrite rem_2_even. Qed.

Lemma read_outside_board sq i :
  is_board sq → ¬ (0 ≤ i ≤ 8) → read sq i = Undefined.
Proof.
  intros (Hlen & Hprops & _) Hi. unfold read. destruct (is_index i) eqn:Hidx.
  - apply andb_true_iff in Hidx as [Hge _]. apply Z.leb_le in Hge.
    rewrite lookup_ge_None_2; [done | lia].
  - by rewrite Hprops.
Qed.

Lemma write_outside_board sq i v :
  is_board sq → ¬ (0 ≤ i ≤ 8) →
  if is_index i
  then elems (write (slice sq) i v)
       = elems sq ++ replicate (Z.to_nat i - 9) Undefined ++ [v] ∧
       length (elems (write (slice sq) i v)) = S (Z.to_nat i) ∧
       props (write (slice sq) i v) = ∅
  else elems (write (slice sq) i v) = elems sq ∧
       props (write (slice sq) i v) = {[ i := v ]}.
Proof.
  intros (Hlen & _ & _) Hi. unfold write, slice; simpl.
  destruct (is_index i) eqn:Hidx; simpl; [|done].
  apply andb_true_iff in Hidx as [Hge _]. apply Z.leb_le in Hge.
  rewrite decide_False by lia. simpl. rewrite Hlen. split; [done|].
  split; [|done]. rewrite !length_app, length_replicate, Hlen. simpl. lia.
Qed.

(** C2: when the current board has no winner and the target square is
    empty, the move succeeds.  The new board is a new object of the store:
    it is the current board with only square [i] changed, to the mark of the
    player to move, which is X when the cursor is even and O when it is odd.
    The history becomes its entries 0 to cursor followed by the new board,
    later entries being dropped, so it has cursor + 2 entries; every object
    of the store, and every snapshot 0 to cursor, keeps its contents; the
    cursor becomes the last position of the new history; and the board
    handed back is the new current board. *)
Theorem attemptMove_success (g : game) (sq : jsarray) (i : Z) :
  currentBoard g = Some sq →
  calculateWinner sq = Null →
  truthy (read sq i) = false →
  ∃ r sq' g',
    attemptMove g i = (Played r, g') ∧
    history g' = take (Z.to_nat (currentMove g + 1)) (history g) ++ [r] ∧
    currentMove g' = Z.of_nat (length (history g')) - 1 ∧
    heap g' !! r = Some sq' ∧
    currentBoard g' = Some sq' ∧
    read sq' i = turnToMove g ∧
    (∀ j, j ≠ i → is_index j = true ∨ props sq = ∅ → read sq' j = read sq j) ∧
    (is_board sq → 0 ≤ i ≤ 8 →
       is_board sq' ∧ elems sq' = <[Z.to_nat i := turnToMove g]> (elems sq)) ∧
    read sq' i = (if Z.even (currentMove g) then X else O) ∧
    heap g !! r = None ∧
    (∀ l a, heap g !! l = Some a → heap g' !! l = Some a) ∧
    (∀ k a, Z.of_nat k ≤ currentMove g →
       board_at g k = Some a → board_at g' k = Some a) ∧
    Z.of_nat (length (history g')) = currentMove g + 2.
Proof.
  intros Hsq Hw Hi. apply calculateWinner_truthy in Hw.
  exists (length (heap g)), (write (slice sq) i (turnToMove g)), (played g sq i).
  destruct (played_currentBoard g sq i Hsq) as [Hcur Hnew].
  destruct (cursor_in_range g sq Hsq) as [Hm Hn].
  split; [by apply attemptMove_played|].
  split; [simpl; do 2 f_equal; lia|].
  split; [rewrite (length_history_played g sq i Hsq); simpl; lia|].
  split; [done|]. split; [done|].
  split; [apply read_write_eq|]. split.
  { intros j Hj Hkey. rewrite read_write_ne by done.
    destruct Hkey; [by apply read_slice | by apply read_slice_no_props]. }
  split.
  { intros Hb Hrange. apply write_board; [done..|].
    unfold turnToMove. by destruct (nextPlayer_mark (xIsNext g)) as [-> | ->]. }
  split; [by rewrite read_write_eq, turnToMove_mark|].
  split; [apply lookup_ge_None_2; lia|].
  split; [intros l a Hl; simpl; by apply lookup_app_l_Some|].
  split.
  { intros k a Hk. apply (board_at_played_old g sq i Hsq). lia. }
  rewrite (length_history_played g sq i Hsq). lia.
Qed.

(** Three moves, back to move 1, then the centre: of four snapshots the
    last two are dropped, and O is placed. *)
Lemma attemptMove_success_witness :
  let g := jumpTo (play initial [0; 1; 2]) 1 in
  let sq := {| elems := [X; Null; Null; Null; Null; Null; Null; Null; Null];
               props := ∅ |} in
  length (history g) = 4%nat ∧
  ∃ r sq' g',
    attemptMove g 4 = (Played r, g') ∧
    history g' = take (Z.to_nat (currentMove g + 1)) (history g) ++ [r] ∧
    currentMove g' = Z.of_nat (length (history g')) - 1 ∧
    heap g' !! r = Some sq' ∧
    currentBoard g' = Some sq' ∧
    read sq' 4 = turnToMove g ∧
    (∀ j, j ≠ 4 → is_index j = true ∨ props sq = ∅ → read sq' j = read sq j) ∧
    (is_board sq → 0 ≤ 4 ≤ 8 →
       is_board sq' ∧ elems sq' = <[Z.to_nat 4 := turnToMove g]> (elems sq)) ∧
    read sq' 4 = (if Z.even (currentMove g) then X else O) ∧
    heap g !! r = None ∧
    (∀ l a, heap g !! l = Some a → heap g' !! l = Some a) ∧
    (∀ k a, Z.of_nat k ≤ currentMove g →
       board_at g k = Some a → board_at g' k = Some a) ∧
    Z.of_nat (length (history g')) = currentMove g + 2.
Proof.
  split; [by vm_compute|].
  apply (attemptMove_success (jumpTo (play initial [0; 1; 2]) 1)
           {| elems := [X; Null; Null; Null; Null; Null; Null; Null; Null];
              props := ∅ |} 4); by vm_compute.
Defined.

(** C3 (as the code has it): the handler tests the winner first and the
    target square second, and returns early on either; a board with a winner
    rejects with [GameAlreadyWon] whatever the square, an occupied square on
    a board without winner rejects with [CellOccupied]; both leave the state
    as it was.  There is no third test: when neither fires the move is
    played, whatever the index, and [IndexOutOfRange] is never the outcome.
    On a nine-square board without winner every index outside [0,8] is
    played: the new board keeps squares 0 to 8 and holds the mover's mark, X
    on an even cursor and O on an odd one, under that index; it has
    index + 1 elements when the index is an array index, and otherwise its
    nine elements and the mark as its one property. *)
Theorem attemptMove_guard_order (g : game) (sq : jsarray) (i : Z) :
  currentBoard g = Some sq →
  (calculateWinner sq ≠ Null → attemptMove g i = (Rejected GameAlreadyWon, g)) ∧
  (calculateWinner sq = Null → truthy (read sq i) = true →
     attemptMove g i = (Rejected CellOccupied, g)) ∧
  (calculateWinner sq = Null → truthy (read sq i) = false →
     ∃ r g', attemptMove g i = (Played r, g')) ∧
  (attemptMove g i).1 ≠ Rejected IndexOutOfRange ∧
  (is_board sq → calculateWinner sq = Null → ¬ (0 ≤ i ≤ 8) →
     ∃ r g' sq',
       attemptMove g i = (Played r, g') ∧
       currentBoard g' = Some sq' ∧
       read sq' i = (if Z.even (currentMove g) then X else O) ∧
       (∀ j, 0 ≤ j ≤ 8 → read sq' j = read sq j) ∧
       if is_index i
       then length (elems sq') = S (Z.to_nat i) ∧ props sq' = ∅
       else elems sq' = elems sq ∧
            props sq' = {[ i := if Z.even (currentMove g) then X else O ]}).
Proof.
  intros Hsq.
  assert (calculateWinner sq ≠ Null →
          attemptMove g i = (Rejected GameAlreadyWon, g)) as Hwon.
  { intros Hw. apply (attemptMove_won g sq i Hsq).
    destruct (truthy (calculateWinner sq)) eqn:Ht; [done|].
    by apply calculateWinner_truthy in Ht. }
  assert (calculateWinner sq = Null → truthy (read sq i) = true →
          attemptMove g i = (Rejected CellOccupied, g)) as Hocc.
  { intros Hw Hi. apply (attemptMove_occupied g sq i Hsq); [|done].
    by apply calculateWinner_truthy. }
  assert (calculateWinner sq = Null → truthy (read sq i) = false →
          attemptMove g i = (Played (length (heap g)), played g sq i)) as Hplay.
  { intros Hw Hi. apply (attemptMove_played g sq i Hsq); [|done].
    by apply calculateWinner_truthy. }
  split; [done|]. split; [done|]. split; [eauto|]. split.
  - destruct (decide (calculateWinner sq = Null)) as [Hw | Hw].
    + destruct (truthy (read sq i)) eqn:Hi.
      * by rewrite Hocc.
      * by rewrite Hplay.
    + by rewrite Hwon.
  - intros Hb Hw Hout.
    pose proof (read_outside_board sq i Hb Hout) as Hundef.
    destruct (played_currentBoard g sq i Hsq) as [Hcur _].
    exists (length (heap g)), (played g sq i), (write (slice sq) i (turnToMove g)).
    split; [apply Hplay; [done | by rewrite Hundef]|].
    split; [done|].
    split; [by rewrite read_write_eq, turnToMove_mark|].
    split.
    + intros j Hj. rewrite read_write_ne by lia.
      apply read_slice, andb_true_iff.
      split; [apply Z.leb_le | apply Z.ltb_lt]; lia.
    + pose proof (write_outside_board sq i (turnToMove g) Hb Hout) as Hgrow.
      rewrite <- turnToMove_mark.
      destruct (is_index i); [|done]. by destruct Hgrow as (_ & ? & ?).
Qed.

(** Square 9 on the new game: the move is played, X is the tenth element. *)
Lemma attemptMove_guard_order_witness :
  ∃ r g' sq',
    attemptMove initial 9 = (Played r, g') ∧
    currentBoard g' = Some sq' ∧
    read sq' 9 = X ∧
    length (elems sq') = 10%nat.
Proof.
  destruct (attemptMove_guard_order initial emptyBoard 9)
    as (_ & _ & _ & _ & Hout); [by vm_compute|].
  destruct Hout as (r & g' & sq' & Hmove & Hcur & Hmark & _ & Hlen & _).
  - split; [reflexivity|]. split; [reflexivity|]. by repeat constructor.
  - by vm_compute.
  - lia.
  - exists r, g', sq'. split; [done|]. split; [done|]. split; [exact Hmark|].
    exact Hlen.
Defined.

Lemma empty_square (a : jsarray) (i : Z) :
  is_board a → 0 ≤ i ≤ 8 → truthy (read a i) = false →
  elems a !! Z.to_nat i = Some Null.
Proof.
  intros (Hlen & _ & Hall) Hi. unfold read.
  replace (is_index i) with true
    by (symmetry; apply andb_true_iff; split; [apply Z.leb_le | apply Z.ltb_lt]; lia).
  destruct (elems a !! Z.to_nat i) as [v|] eqn:Hv.
  - rewrite Forall_lookup in Hall. specialize (Hall _ _ Hv).
    by destruct v.
  - apply lookup_ge_None in Hv. lia.
Qed.

Lemma history_ok_initial : history_ok initial.
Proof.
  split.
  - reflexivity.
  - intros [|k] Hk; [|simpl in Hk; lia]. exists emptyBoard.
    split; [reflexivity|]. repeat split. by repeat constructor.
  - intros k prev next _ Hnext. by destruct k.
Qed.

Lemma history_ok_played g sq i :
  history_ok g → currentBoard g = Some sq → 0 ≤ i ≤ 8 →
  truthy (read sq i) = false →
  history_ok (played g sq i).
Proof.
  intros [Hstart Hboards Hsteps] Hsq Hi Hempty.
  destruct (cursor_in_range g sq Hsq) as [Hm Hn].
  pose proof (board_at_cursor g sq Hsq) as Hcur.
  pose proof (board_at_played_new g sq i Hsq) as Hnew.
  pose proof (length_history_played g sq i Hsq) as Hlen.
  pose proof (turnToMove_turnAt g sq Hsq) as Hturn.
  set (n := Z.to_nat (currentMove g)) in *.
  assert (is_board sq) as Hb.
  { destruct (Hboards n Hn) as (a & Ha & Hboard). congruence. }
  assert (turnToMove g ≠ Undefined) as Hmark.
  { unfold turnToMove. by destruct (nextPlayer_mark (xIsNext g)) as [-> | ->]. }
  destruct (write_board sq i (turnToMove g) Hb Hi Hmark) as [Hb' Helems].
  split.
  - apply (board_at_played_old g sq i Hsq); [lia | done].
  - intros k Hk. rewrite Hlen in Hk.
    destruct (decide (k ≤ n)%nat) as [Hle | Hgt].
    + destruct (Hboards k) as (a & Ha & Hboard); [lia|].
      exists a. split; [|done]. by apply (board_at_played_old g sq i Hsq).
    + assert (k = S n) as -> by lia. eauto.
  - intros k prev next Hprev Hnext.
    destruct (decide (S k ≤ n)%nat) as [Hle | Hgt].
    + destruct (Hboards k) as (a & Ha & _); [lia|].
      destruct (Hboards (S k)) as (a' & Ha' & _); [lia|].
      rewrite (board_at_played_old g sq i Hsq k a) in Hprev by (lia || done).
      rewrite (board_at_played_old g sq i Hsq (S k) a') in Hnext by (lia || done).
      apply Hsteps; congruence.
    + destruct (decide (k = n)) as [-> | Hne].
      * rewrite (board_at_played_old g sq i Hsq n sq) in Hprev by (lia || done).
        rewrite Hnew in Hnext.
        injection Hprev as <-. injection Hnext as <-.
        rewrite <- Hturn.
        exists (Z.to_nat i). split; [lia|].
        split; [by apply empty_square | done].
      * unfold board_at in Hnext.
        rewrite (lookup_ge_None_2 (history (played g sq i))) in Hnext by lia.
        done.
Qed.

Lemma history_ok_attemptMove g i :
  history_ok g → 0 ≤ i ≤ 8 → history_ok (attemptMove g i).2.
Proof.
  intros Hok Hi. destruct (currentBoard g) as [sq|] eqn:Hsq.
  - destruct (truthy (calculateWinner sq)) eqn:Hw.
    { by rewrite (attemptMove_won g sq i). }
    destruct (truthy (read sq i)) eqn:Hempty.
    { by rewrite (attemptMove_occupied g sq i). }
    rewrite (attemptMove_played g sq i) by done.
    by apply history_ok_played.
  - by rewrite attemptMove_undefined.
Qed.

Lemma history_ok_jumpTo g move : history_ok g → history_ok (jumpTo g move).
Proof. intros [Hstart Hboards Hsteps]. by split. Qed.

Lemma reachable_history_ok g : reachable g → history_ok g.
Proof.
  induction 1 as [|g i _ IH Hi|g move _ IH].
  - apply history_ok_initial.
  - by apply history_ok_attemptMove.
  - by apply history_ok_jumpTo.
Qed.

Lemma one_move_reads v prev next :
  is_board prev → is_board next → one_move v prev next →
  ∃ i, 0 ≤ i ≤ 8 ∧ read prev i = Null ∧ read next i = v ∧
       ∀ j, j ≠ i → read next j = read prev j.
Proof.
  intros (Hlen & Hprops & _) (Hlen' & Hprops' & _) (i & Hi & Hnull & Helems).
  exists (Z.of_nat i).
  assert (is_index (Z.of_nat i) = true) as Hidx
    by (apply andb_true_iff; split; [apply Z.leb_le | apply Z.ltb_lt]; lia).
  split; [lia|]. unfold read. rewrite Hidx, Nat2Z.id, Hnull, Helems.
  split; [done|]. split.
  - rewrite list_lookup_insert_eq by lia. done.
  - intros j Hj. destruct (is_index j) eqn:Hjx.
    + apply andb_true_iff in Hjx as [Hj0 _]. apply Z.leb_le in Hj0.
      rewrite list_lookup_insert_ne by lia. done.
    + by rewrite Hprops, Hprops'.
Qed.

(** C5: in every state reached from the initial one by clicks on the nine
    squares and by jumps, snapshot 0 of the history is the empty board, and
    every snapshot [k > 0] is a board that differs from snapshot [k - 1] in
    exactly one square [i], empty before and holding afterwards the mark of
    the player to move at [k - 1]: X when [k - 1] is even, O when odd. *)
Theorem reachable_history (g : game) :
  reachable g →
  board_at g 0 = Some emptyBoard ∧
  ∀ k, (0 < k < length (history g))%nat →
    ∃ prev next i,
      board_at g (k - 1) = Some prev ∧ board_at g k = Some next ∧
      is_board prev ∧ is_board next ∧
      0 ≤ i ≤ 8 ∧
      read prev i = Null ∧
      read next i = turnAt (k - 1) ∧
      turnAt (k - 1) = (if Nat.even (k - 1) then X else O) ∧
      ∀ j, j ≠ i → read next j = read prev j.
Proof.
  intros Hreach. apply reachable_history_ok in Hreach as [Hstart Hboards Hsteps].
  split; [done|]. intros k Hk.
  destruct (Hboards (k - 1)%nat) as (prev & Hprev & Hb); [lia|].
  destruct (Hboards k) as (next & Hnext & Hb'); [lia|].
  assert (one_move (turnAt (k - 1)) prev next) as Hmove.
  { apply Hsteps; [done|]. by replace (S (k - 1)) with k by lia. }
  destruct (one_move_reads _ _ _ Hb Hb' Hmove) as (i & Hi & Hnull & Hset & Hrest).
  exists prev, next, i. do 7 (split; [done|]). split; [|done].
  unfold turnAt. by rewrite rem_2_even, even_of_nat.
Qed.

(** X at the centre, then O in the corner: two clicks from the start. *)
Lemma reachable_history_witness :
  board_at centreCornerGame 0 = Some emptyBoard ∧
  ∀ k, (0 < k < length (history centreCornerGame))%nat →
    ∃ prev next i,
      board_at centreCornerGame (k - 1) = Some prev ∧
      board_at centreCornerGame k = Some next ∧
      is_board prev ∧ is_board next ∧
      0 ≤ i ≤ 8 ∧
      read prev i = Null ∧
      read next i = turnAt (k - 1) ∧
      turnAt (k - 1) = (if Nat.even (k - 1) then X else O) ∧
      ∀ j, j ≠ i → read next j = read prev j.
Proof.
  apply (reachable_history centreCornerGame).
  change (reachable (attemptMove (attemptMove initial 4).2 0).2).
  apply reachable_click; [|lia].
  apply reachable_click; [|lia].
  apply reachable_initial.
Defined.

(** * Further properties of the code *)

(** ** calculateWinner: what it reads *)

Lemma winner_from_hit b (ls : list (Z * Z * Z)) :
  winner_from b ls ≠ Null →
  ∃ l, l ∈ ls ∧ line_hit b l = true ∧ winner_from b ls = read b l.1.1.
Proof.
  induction ls as [|l ls IH]; [done|]. simpl.
  destruct (line_hit b l) eqn:Hl.
  - intros _. exists l. split; [left | done].
  - intros Hw. destruct (IH Hw) as (l' & Hin & Hhit & Heq).
    exists l'. split; [by right | done].
Qed.

Lemma completed_has_winner b l :
  l ∈ lines → completed b l → calculateWinner b ≠ Null.
Proof.
  intros Hin Hl. destruct (first_completed_exists b l Hin Hl) as (k & l1 & Hfirst).
  rewrite (calculateWinner_first b k l1 Hfirst).
  destruct Hfirst as (_ & (p & Hp & -> & _) & _). by destruct Hp as [-> | ->].
Qed.

Lemma is_index_square j : 0 ≤ j ≤ 8 → is_index j = true.
Proof.
  intros Hj. apply andb_true_iff. split; [apply Z.leb_le | apply Z.ltb_lt]; lia.
Qed.

(** X1: the winner depends on the squares 0 to 8 alone: two arrays that
    read the same there have the same winner, whatever else they hold
    (further elements, properties). *)
Theorem calculateWinner_nine_squares (a b : jsarray) :
  (∀ j, 0 ≤ j ≤ 8 → read a j = read b j) →
  calculateWinner a = calculateWinner b.
Proof.
  intros Hsame. unfold calculateWinner, lines; simpl. unfold line_hit; simpl.
  by rewrite !Hsame by lia.
Qed.

(** A board with a tenth element and a property, against its first nine
    squares. *)
Lemma calculateWinner_nine_squares_witness :
  calculateWinner
    {| elems := [O; X; X; O; X; Null; O; Null; Null; X];
       props := {[ -1 := X ]} |}
  = calculateWinner
      {| elems := [O; X; X; O; X; Null; O; Null; Null]; props := ∅ |}.
Proof.
  apply calculateWinner_nine_squares. intros j Hj.
  assert (j = 0 ∨ j = 1 ∨ j = 2 ∨ j = 3 ∨ j = 4 ∨ j = 5 ∨ j = 6
          ∨ j = 7 ∨ j = 8) as Hcases by lia.
  destruct_or!; subst j; reflexivity.
Defined.

Lemma read_swap_marks a j : read (swap_marks a) j = swap (read a j).
Proof.
  unfold read, swap_marks; simpl. destruct (is_index j).
  - rewrite list_lookup_fmap. by destruct (elems a !! Z.to_nat j).
  - rewrite lookup_fmap. by destruct (props a !! j).
Qed.

(** X2: the test treats the two marks alike: with X and O exchanged on the
    whole array, the winner is the exchanged one, and no winner stays no
    winner. *)
Theorem calculateWinner_swap_marks (a : jsarray) :
  calculateWinner (swap_marks a) = swap (calculateWinner a).
Proof.
  unfold calculateWinner. induction lines as [|[[x y] z] ls IH]; [done|].
  simpl. unfold strict_eq. rewrite !read_swap_marks, IH.
  destruct (read a x), (read a y), (read a z); reflexivity.
Qed.

(** X3: an array of fewer than three elements has no winner, the empty
    array included: every line has a square past its end. *)
Theorem calculateWinner_short_array (a : jsarray) :
  (length (elems a) < 3)%nat → calculateWinner a = Null.
Proof.
  intros Hlen.
  assert (∀ j, 2 ≤ j ≤ 8 → read a j = Undefined) as Hpast.
  { intros j Hj. unfold read. rewrite is_index_square by lia.
    rewrite lookup_ge_None_2; [done | lia]. }
  unfold calculateWinner, lines; simpl. unfold line_hit, strict_eq; simpl.
  rewrite (Hpast 2), (Hpast 3), (Hpast 4), (Hpast 5), (Hpast 6), (Hpast 7),
    (Hpast 8) by lia.
  destruct (read a 0), (read a 1); reflexivity.
Qed.

(** Two X side by side and nothing else. *)
Lemma calculateWinner_short_array_witness :
  calculateWinner {| elems := [X; X]; props := ∅ |} = Null.
Proof. apply calculateWinner_short_array. simpl. lia. Defined.

(** ** The click handler and handlePlay: how calls compose *)

Lemma truthy_nextPlayer x : truthy (nextPlayer x) = true.
Proof. by destruct x. Qed.

(** X4: a second click on the same square is never played and changes
    nothing: whatever the first click did, the state after the second is the
    state after the first.  This holds for every state and every index. *)
Theorem attemptMove_same_square_again (g : game) (i : Z) :
  (attemptMove (attemptMove g i).2 i).2 = (attemptMove g i).2 ∧
  ∀ r, (attemptMove (attemptMove g i).2 i).1 ≠ Played r.
Proof.
  destruct (currentBoard g) as [sq|] eqn:Hsq.
  - destruct (truthy (calculateWinner sq)) eqn:Hw.
    { by rewrite !(attemptMove_won g sq i Hsq Hw); simpl;
        rewrite (attemptMove_won g sq i Hsq Hw). }
    destruct (truthy (read sq i)) eqn:Hi.
    { by rewrite !(attemptMove_occupied g sq i Hsq Hw Hi); simpl;
        rewrite (attemptMove_occupied g sq i Hsq Hw Hi). }
    rewrite (attemptMove_played g sq i Hsq Hw Hi); simpl.
    destruct (played_currentBoard g sq i Hsq) as [Hcur _].
    assert (truthy (read (write (slice sq) i (turnToMove g)) i) = true) as Hi'.
    { rewrite read_write_eq. apply truthy_nextPlayer. }
    destruct (truthy (calculateWinner (write (slice sq) i (turnToMove g))))
      eqn:Hw'.
    + by rewrite (attemptMove_won _ _ i Hcur Hw').
    + by rewrite (attemptMove_occupied _ _ i Hcur Hw' Hi').
  - by rewrite !(attemptMove_undefined g i Hsq); simpl;
      rewrite (attemptMove_undefined g i Hsq).
Qed.

Lemma xIsNext_succ g g' :
  currentMove g' = currentMove g + 1 → xIsNext g' = negb (xIsNext g).
Proof.
  intros Hm. unfold xIsNext. rewrite Hm, !rem_2_even.
  rewrite Z.add_1_r, Z.even_succ. by rewrite <- Z.negb_even.
Qed.

(** X5: a played move advances the cursor by exactly one, hands the turn
    to the other player, and leaves a history of cursor + 2 snapshots,
    however many were stored after the cursor. *)
Theorem attemptMove_played_turn (g g' : game) (i : Z) (r : loc) :
  attemptMove g i = (Played r, g') →
  currentMove g' = currentMove g + 1 ∧
  turnToMove g' = swap (turnToMove g) ∧
  Z.of_nat (length (history g')) = currentMove g + 2.
Proof.
  intros Hmove.
  apply attemptMove_Played_inv in Hmove as (sq & Hsq & _ & _ & _ & ->).
  destruct (cursor_in_range g sq Hsq) as [Hm Hn].
  split; [done|]. split.
  - unfold turnToMove. rewrite (xIsNext_succ g (played g sq i)) by done.
    by destruct (xIsNext g).
  - rewrite (length_history_played g sq i Hsq). lia.
Qed.

(** Three moves, back to move 1, then the centre: three snapshots are
    left, and X is to move. *)
Lemma attemptMove_played_turn_witness :
  let g := jumpTo (play initial [0; 1; 2]) 1 in
  length (history g) = 4%nat ∧
  Z.of_nat (length (history (attemptMove g 4).2)) = 3 ∧
  turnToMove (attemptMove g 4).2 = X.
Proof.
  destruct (attemptMove_played_turn
              (jumpTo (play initial [0; 1; 2]) 1)
              (attemptMove (jumpTo (play initial [0; 1; 2]) 1) 4).2 4 4%nat)
    as (_ & Hturn & Hlen); [reflexivity|].
  split; [reflexivity|]. split; [exact Hlen | exact Hturn].
Defined.

(** X6: [handlePlay] leaves the cursor on the board it was given, whatever
    the cursor was before: the new history is a prefix of the old one
    followed by that board, and the store is untouched.  With the cursor at
    -1 the whole history is dropped; with the cursor on or past the last
    snapshot nothing is dropped. *)
Theorem handlePlay_current (g : game) (nextSquares : loc) :
  currentSquares (handlePlay g nextSquares) = Some nextSquares ∧
  (∃ k, (k ≤ length (history g))%nat ∧
        history (handlePlay g nextSquares) = take k (history g) ++ [nextSquares]) ∧
  heap (handlePlay g nextSquares) = heap g ∧
  (currentMove g = -1 → history (handlePlay g nextSquares) = [nextSquares]) ∧
  (Z.of_nat (length (history g)) ≤ currentMove g + 1 →
     history (handlePlay g nextSquares) = history g ++ [nextSquares]).
Proof.
  unfold handlePlay, slice_to, currentSquares; simpl.
  set (len := Z.of_nat (length (history g))).
  set (k := Z.to_nat (if currentMove g + 1 <? 0
                      then Z.max (len + (currentMove g + 1)) 0
                      else Z.min (currentMove g + 1) len)).
  assert (k ≤ length (history g))%nat as Hk.
  { unfold k, len.
    destruct (currentMove g + 1 <? 0) eqn:Hneg; [apply Z.ltb_lt in Hneg|]; lia. }
  assert (length (take k (history g) ++ [nextSquares]) = S k) as Hlen.
  { rewrite length_app, length_take. cbn [length]. lia. }
  rewrite Hlen. split; [|split; [|split; [|split]]].
  - replace (0 <=? Z.of_nat (S k) - 1) with true by (symmetry; apply Z.leb_le; lia).
    replace (Z.to_nat (Z.of_nat (S k) - 1)) with k by lia.
    rewrite lookup_app_r by (rewrite length_take; lia).
    rewrite length_take. by replace (k - _)%nat with 0%nat by lia.
  - by exists k.
  - done.
  - intros Hm. by replace k with 0%nat by (unfold k, len; rewrite Hm; simpl; lia).
  - intros Hm. f_equal. apply take_ge. unfold k.
    destruct (currentMove g + 1 <? 0) eqn:Hneg; [apply Z.ltb_lt in Hneg|]; lia.
Qed.

(** A move at the cursor -1, which no run reaches: only the new board is
    left. *)
Lemma handlePlay_current_witness :
  history (handlePlay (jumpTo (play initial [0; 1]) (-1)) 2%nat) = [2%nat].
Proof.
  destruct (handlePlay_current (jumpTo (play initial [0; 1]) (-1)) 2%nat)
    as (_ & _ & _ & Hdrop & _).
  apply Hdrop. reflexivity.
Defined.

(** ** The snapshots of a game *)

Section Counting.
Implicit Types (l : list value) (p v : value).

Lemma count_insert_empty l i v p :
  l !! i = Some Null → p ≠ Null →
  length (filter (λ x, x = p) (<[i := v]> l))
  = (length (filter (λ x, x = p) l) + (if decide (v = p) then 1 else 0))%nat.
Proof.
  revert i. induction l as [|x l IH]; intros [|i] Hi Hp; try done.
  - injection Hi as ->. change (<[0%nat := v]> (Null :: l)) with (v :: l).
    rewrite !filter_cons. rewrite (decide_False (P := Null = p)) by done.
    repeat case_decide; try congruence; cbn [length]; lia.
  - change (<[S i := v]> (x :: l)) with (x :: <[i := v]> l).
    rewrite !filter_cons. specialize (IH i Hi Hp).
    repeat case_decide; try congruence; cbn [length]; lia.
Qed.

Lemma count_marks_le l :
  (length (filter (λ x, x = X) l) + length (filter (λ x, x = O) l) ≤ length l)%nat.
Proof.
  induction l as [|x l IH]; [done|]. rewrite !filter_cons.
  destruct x; repeat case_decide; simpl; try congruence; lia.
Qed.

Lemma count_marks_full l :
  (length (filter (λ x, x = X) l) + length (filter (λ x, x = O) l))%nat = length l →
  Forall (λ x, truthy x = true) l.
Proof.
  induction l as [|x l IH]; [constructor|]. rewrite !filter_cons.
  pose proof (count_marks_le l).
  destruct x; repeat case_decide; simpl; try congruence; try lia;
    intros Hfull; constructor; try done; apply IH; lia.
Qed.
End Counting.

Lemma turnAt_even k : turnAt k = if Nat.even k then X else O.
Proof. unfold turnAt. by rewrite rem_2_even, even_of_nat. Qed.

Lemma board_at_Some_lt g k a :
  board_at g k = Some a → (k < length (history g))%nat.
Proof.
  unfold board_at. destruct (history g !! k) as [r|] eqn:Hr; [|done].
  intros _. by apply lookup_lt_Some in Hr.
Qed.

Lemma one_move_counts v prev next p :
  p ≠ Null → one_move v prev next →
  count_mark p next = (count_mark p prev + (if decide (v = p) then 1 else 0))%nat.
Proof.
  intros Hp (i & _ & Hnull & Helems). unfold count_mark.
  rewrite Helems. by apply count_insert_empty.
Qed.

Lemma snapshot_counts g :
  history_ok g → ∀ k a, board_at g k = Some a →
    (count_mark X a + count_mark O a)%nat = k ∧
    count_mark X a = (count_mark O a + (if Nat.even k then 0 else 1))%nat.
Proof.
  intros [Hstart Hboards Hsteps]. induction k as [|k IH]; intros a Ha.
  - rewrite Hstart in Ha. by injection Ha as <-.
  - destruct (Hboards k) as (prev & Hprev & _).
    { apply board_at_Some_lt in Ha. lia. }
    destruct (IH prev Hprev) as [Hsum Hdiff].
    pose proof (Hsteps k prev a Hprev Ha) as Hmove.
    rewrite (one_move_counts _ _ _ X ltac:(done) Hmove).
    rewrite (one_move_counts _ _ _ O ltac:(done) Hmove).
    rewrite turnAt_even, Nat.even_succ, <- Nat.negb_even.
    destruct (Nat.even k); simpl; repeat case_decide; try congruence; lia.
Qed.

Lemma reachable_play g (squares : list Z) :
  reachable g → Forall (λ i, 0 ≤ i ≤ 8) squares → reachable (play g squares).
Proof.
  intros Hg Hall. revert g Hg.
  induction Hall as [|i squares Hi _ IH]; intros g Hg; [done|].
  apply IH. by apply reachable_click.
Qed.

(** X7: in every reachable state, snapshot [k] of the history holds exactly
    [k] marks, as many X as O when [k] is even and one X more when [k] is
    odd; so a history never has more than ten snapshots. *)
Theorem snapshot_marks (g : game) :
  reachable g →
  (length (history g) ≤ 10)%nat ∧
  ∀ k a, board_at g k = Some a →
    (count_mark X a + count_mark O a)%nat = k ∧
    count_mark X a = (count_mark O a + (if Nat.even k then 0 else 1))%nat ∧
    (k ≤ 9)%nat.
Proof.
  intros Hreach. apply reachable_history_ok in Hreach as Hok.
  assert (∀ k a, board_at g k = Some a →
            (count_mark X a + count_mark O a)%nat = k ∧
            count_mark X a = (count_mark O a + (if Nat.even k then 0 else 1))%nat ∧
            (k ≤ 9)%nat) as Hall.
  { intros k a Ha. destruct (snapshot_counts g Hok k a Ha) as [Hsum Hdiff].
    split; [done|]. split; [done|].
    destruct (ok_boards g Hok k) as (a' & Ha' & Hlen & _).
    { by eapply board_at_Some_lt. }
    assert (a' = a) as -> by congruence.
    pose proof (count_marks_le (elems a)) as Hle. unfold count_mark in Hsum. lia. }
  split; [|done].
  destruct (decide (length (history g) ≤ 10)%nat) as [|Hlong]; [done|].
  destruct (ok_boards g Hok 10) as (a & Ha & _); [lia|].
  destruct (Hall 10%nat a Ha) as (_ & _ & Hk). lia.
Qed.

(** The drawn game: ten snapshots, the last with five X and four O. *)
Lemma snapshot_marks_witness :
  (length (history drawnGame) ≤ 10)%nat ∧
  ∀ k a, board_at drawnGame k = Some a →
    (count_mark X a + count_mark O a)%nat = k ∧
    count_mark X a = (count_mark O a + (if Nat.even k then 0 else 1))%nat ∧
    (k ≤ 9)%nat.
Proof.
  apply (snapshot_marks drawnGame).
  apply reachable_play; [apply reachable_initial|].
  repeat (apply Forall_cons_2; [lia|]). apply Forall_nil_2.
Defined.

Lemma no_early_winner_played g sq i :
  history_ok g → no_early_winner g →
  currentBoard g = Some sq → calculateWinner sq = Null →
  no_early_winner (played g sq i).
Proof.
  intros Hok Hnw Hsq Hw k a Hk Ha.
  rewrite (length_history_played g sq i Hsq) in Hk.
  destruct (cursor_in_range g sq Hsq) as [_ Hn].
  destruct (ok_boards g Hok k) as (a' & Ha' & _); [lia|].
  rewrite (board_at_played_old g sq i Hsq k a') in Ha by (lia || done).
  injection Ha as <-.
  destruct (decide (k = Z.to_nat (currentMove g))) as [-> | Hne].
  - rewrite (board_at_cursor g sq Hsq) in Ha'. by injection Ha' as <-.
  - apply (Hnw k a'); [lia | done].
Qed.

Lemma reachable_no_early_winner g : reachable g → no_early_winner g.
Proof.
  induction 1 as [|g i Hg IH Hi|g move _ IH].
  - intros k a Hk. simpl in Hk. lia.
  - destruct (currentBoard g) as [sq|] eqn:Hsq.
    + destruct (truthy (calculateWinner sq)) eqn:Hw.
      { by rewrite (attemptMove_won g sq i). }
      destruct (truthy (read sq i)) eqn:Hempty.
      { by rewrite (attemptMove_occupied g sq i). }
      rewrite (attemptMove_played g sq i) by done.
      apply no_early_winner_played; [by apply reachable_history_ok | done..|].
      by apply calculateWinner_truthy.
    + by rewrite attemptMove_undefined.
  - exact IH.
Qed.

Lemma completed_count a l p :
  is_board a → l ∈ lines →
  read a l.1.1 = p → read a l.1.2 = p → read a l.2 = p →
  (3 ≤ count_mark p a)%nat.
Proof.
  intros (Hlen & _ & _) Hin. destruct a as [es ps]; simpl in Hlen.
  do 10 (destruct es as [|? es]; try discriminate Hlen).
  unfold lines in Hin.
  repeat (apply elem_of_cons in Hin as [-> | Hin]);
    [..|by apply elem_of_nil in Hin];
    intros H1 H2 H3; vm_compute in H1, H2, H3; subst;
    unfold count_mark; cbn [elems]; rewrite !filter_cons;
    repeat case_decide; try congruence; cbn [length]; lia.
Qed.

Lemma snapshot_winner g k a :
  reachable g → board_at g k = Some a → calculateWinner a ≠ Null →
  S k = length (history g) ∧ (5 ≤ k)%nat ∧ calculateWinner a = turnAt (k - 1).
Proof.
  intros Hreach Ha Hw.
  pose proof (reachable_history_ok g Hreach) as Hok.
  pose proof (reachable_no_early_winner g Hreach) as Hnw.
  pose proof (board_at_Some_lt g k a Ha) as Hk.
  assert (S k = length (history g)) as Hlast.
  { destruct (decide (S k = length (history g))); [done|].
    destruct Hw. apply (Hnw k a); [lia | done]. }
  assert (0 < k)%nat as Hpos.
  { destruct k; [|lia]. rewrite (ok_start g Hok) in Ha.
    injection Ha as <-. by destruct Hw. }
  destruct (ok_boards g Hok (k - 1)%nat) as (prev & Hprev & Hb); [lia|].
  destruct (ok_boards g Hok k Hk) as (a' & Ha' & Hb').
  assert (a' = a) as -> by congruence.
  assert (calculateWinner prev = Null) as Hw0 by (apply (Hnw (k - 1)%nat); [lia | done]).
  assert (one_move (turnAt (k - 1)) prev a) as Hmove.
  { apply (ok_steps g Hok); [done|]. by replace (S (k - 1)) with k by lia. }
  destruct (one_move_reads _ _ _ Hb Hb' Hmove) as (i & Hi & Hnull & Hset & Hrest).
  destruct (winner_from_hit a lines Hw) as (l & Hin & Hhit & Heq).
  fold (calculateWinner a) in Heq.
  apply line_hit_completed in Hhit as (p & Hp & H1 & H2 & H3).
  assert (p = turnAt (k - 1)) as Hpt.
  { destruct (decide (i = l.1.1)) as [-> | Hne1]; [congruence|].
    destruct (decide (i = l.1.2)) as [-> | Hne2]; [congruence|].
    destruct (decide (i = l.2)) as [-> | Hne3]; [congruence|].
    destruct (completed_has_winner prev l Hin); [|done].
    exists p. rewrite <- !Hrest by done. done. }
  split; [done|]. split; [|congruence].
  pose proof (completed_count a l p Hb' Hin H1 H2 H3) as Hcount.
  destruct (snapshot_counts g Hok k a Ha) as [Hsum Hdiff].
  destruct Hp as [-> | ->], (Nat.even k); lia.
Qed.

(** X8: in every reachable state only the last snapshot of the history can
    have a winner; it has at least five marks, and the winner is the player
    who placed the last of them. *)
Theorem winner_is_last_mover (g : game) (k : nat) (a : jsarray) :
  reachable g → board_at g k = Some a → calculateWinner a ≠ Null →
  S k = length (history g) ∧ (5 ≤ k)%nat ∧ calculateWinner a = turnAt (k - 1).
Proof. apply snapshot_winner. Qed.

(** The won game of five moves: the winner X made the fifth. *)
Lemma winner_is_last_mover_witness :
  S 5 = length (history leftColumnGame) ∧ (5 ≤ 5)%nat ∧
  calculateWinner
    {| elems := [X; O; Null; X; O; Null; X; Null; Null]; props := ∅ |}
  = turnAt (5 - 1).
Proof.
  apply (winner_is_last_mover leftColumnGame 5
           {| elems := [X; O; Null; X; O; Null; X; Null; Null]; props := ∅ |}).
  - apply reachable_play; [apply reachable_initial|].
    repeat (apply Forall_cons_2; [lia|]). apply Forall_nil_2.
  - by vm_compute.
  - by vm_compute.
Defined.

Lemma currentBoard_jumpTo g (m : nat) :
  currentBoard (jumpTo g (Z.of_nat m)) = board_at g m.
Proof.
  unfold currentBoard, currentSquares, board_at; simpl.
  replace (0 <=? Z.of_nat m) with true by (symmetry; apply Z.leb_le; lia).
  by rewrite Nat2Z.id.
Qed.

(** X9: every move of a reachable history can be played again: after a
    jump to snapshot [m], some click on one of the nine squares is played
    and makes a new board, a new object, with the contents of snapshot
    [m + 1]. *)
Theorem replay_snapshot (g : game) (m : nat) (next : jsarray) :
  reachable g → board_at g (S m) = Some next →
  ∃ i r g',
    0 ≤ i ≤ 8 ∧
    attemptMove (jumpTo g (Z.of_nat m)) i = (Played r, g') ∧
    currentBoard g' = Some next ∧
    heap g !! r = None ∧
    history g' = take (S m) (history g) ++ [r].
Proof.
  intros Hreach Hnext.
  pose proof (reachable_history_ok g Hreach) as Hok.
  pose proof (reachable_no_early_winner g Hreach) as Hnw.
  pose proof (board_at_Some_lt g (S m) next Hnext) as Hlt.
  destruct (ok_boards g Hok m) as (prev & Hprev & Hb); [lia|].
  destruct (ok_boards g Hok (S m) Hlt) as (next' & Hnext' & Hb').
  assert (next' = next) as -> by congruence.
  pose proof (Hnw m prev Hlt Hprev) as Hw.
  destruct (ok_steps g Hok m prev next Hprev Hnext) as (i & Hi & Hnull & Helems).
  set (g1 := jumpTo g (Z.of_nat m)).
  assert (currentBoard g1 = Some prev) as Hcur
    by (unfold g1; by rewrite currentBoard_jumpTo).
  assert (truthy (read prev (Z.of_nat i)) = false) as Hempty.
  { unfold read. rewrite is_index_square by lia. by rewrite Nat2Z.id, Hnull. }
  assert (turnToMove g1 = turnAt m) as Hturn.
  { rewrite (turnToMove_turnAt g1 prev Hcur). simpl. by rewrite Nat2Z.id. }
  assert (turnToMove g1 ≠ Undefined) as Hmark.
  { unfold turnToMove. by destruct (nextPlayer_mark (xIsNext g1)) as [-> | ->]. }
  destruct (write_board prev (Z.of_nat i) (turnToMove g1) Hb ltac:(lia) Hmark)
    as [(_ & Hprops & _) Hwritten].
  exists (Z.of_nat i), (length (heap g)), (played g1 prev (Z.of_nat i)).
  split; [lia|]. split.
  { apply (attemptMove_played g1 prev (Z.of_nat i) Hcur); [|done].
    by apply calculateWinner_truthy. }
  split.
  { destruct (played_currentBoard g1 prev (Z.of_nat i) Hcur) as [-> _].
    f_equal. destruct Hb' as (_ & Hprops' & _).
    destruct next as [es ps], (write (slice prev) (Z.of_nat i) (turnToMove g1))
      as [es' ps']; simpl in *.
    rewrite Hwritten, Hturn, Nat2Z.id, Hprops, Hprops', Helems. done. }
  split; [apply lookup_ge_None_2; lia|].
  simpl. by rewrite Nat2Z.id.
Qed.

(** After X at the centre and O in the corner, snapshot 1 is played again
    from the start. *)
Lemma replay_snapshot_witness :
  ∃ i r g',
    0 ≤ i ≤ 8 ∧
    attemptMove (jumpTo centreCornerGame (Z.of_nat 0)) i = (Played r, g') ∧
    currentBoard g'
      = Some {| elems := [Null; Null; Null; Null; X; Null; Null; Null; Null];
                props := ∅ |} ∧
    heap centreCornerGame !! r = None ∧
    history g' = take 1 (history centreCornerGame) ++ [r].
Proof.
  apply (replay_snapshot centreCornerGame 0).
  - apply reachable_play; [apply reachable_initial|].
    repeat (apply Forall_cons_2; [lia|]). apply Forall_nil_2.
  - by vm_compute.
Defined.

Lemma squareIndices_range i : i ∈ squareIndices ↔ 0 ≤ i ≤ 8.
Proof.
  unfold squareIndices. rewrite !elem_of_cons, elem_of_nil. lia.
Qed.

(** X10: when the cursor of a reachable state is on snapshot 9, the board
    is full: a click on any of the nine squares is rejected and changes
    nothing.  The status line then reads "Winner: X", or, on a draw, still
    names O as the next player. *)
Theorem full_board_rejects (g : game) (sq : jsarray) :
  reachable g → currentMove g = 9 → currentBoard g = Some sq →
  (∀ i, i ∈ squareIndices →
     truthy (read sq i) = true ∧
     attemptMove g i
       = (Rejected (if truthy (calculateWinner sq)
                    then GameAlreadyWon else CellOccupied), g)) ∧
  (status (xIsNext g) sq = "Winner: X" ∨
   calculateWinner sq = Null ∧ status (xIsNext g) sq = "Next player: O").
Proof.
  intros Hreach Hm Hsq.
  pose proof (reachable_history_ok g Hreach) as Hok.
  pose proof (board_at_cursor g sq Hsq) as Hat. rewrite Hm in Hat.
  change (Z.to_nat 9) with 9%nat in Hat.
  destruct (snapshot_counts g Hok 9%nat sq Hat) as [Hsum _].
  destruct (ok_boards g Hok 9%nat) as (sq' & Hat' & Hlen & _ & _).
  { by eapply board_at_Some_lt. }
  assert (sq' = sq) as -> by congruence.
  assert (Forall (λ x, truthy x = true) (elems sq)) as Hfull.
  { apply count_marks_full. unfold count_mark in Hsum. lia. }
  split.
  - intros i Hi. apply squareIndices_range in Hi.
    assert (truthy (read sq i) = true) as Hocc.
    { unfold read. rewrite is_index_square by done.
      destruct (elems sq !! Z.to_nat i) as [v|] eqn:Hv.
      - rewrite Forall_lookup in Hfull. by apply (Hfull _ _ Hv).
      - apply lookup_ge_None in Hv. lia. }
    split; [done|]. destruct (truthy (calculateWinner sq)) eqn:Hw.
    + by apply (attemptMove_won g sq).
    + by apply (attemptMove_occupied g sq).
  - unfold status, xIsNext. rewrite Hm.
    destruct (truthy (calculateWinner sq)) eqn:Hw.
    + left. destruct (snapshot_winner g 9 sq Hreach Hat) as (_ & _ & ->).
      * intros Hnull. by rewrite Hnull in Hw.
      * reflexivity.
    + right. split; [by apply calculateWinner_truthy | reflexivity].
Qed.

(** The drawn game X O X / X O O / O X X: O is named next, no click is
    played. *)
Lemma full_board_rejects_witness :
  status (xIsNext drawnGame)
    {| elems := [X; O; X; X; O; O; O; X; X]; props := ∅ |} = "Next player: O" ∧
  attemptMove drawnGame 4 = (Rejected CellOccupied, drawnGame).
Proof.
  destruct (full_board_rejects drawnGame
              {| elems := [X; O; X; X; O; O; O; X; X]; props := ∅ |})
    as [Hclicks Hstatus].
  - apply reachable_play; [apply reachable_initial|].
    repeat (apply Forall_cons_2; [lia|]). apply Forall_nil_2.
  - by vm_compute.
  - by vm_compute.
  - split.
    + destruct Hstatus as [Hwon | [_ Hnext]]; [|exact Hnext].
      vm_compute in Hwon. discriminate Hwon.
    + destruct (Hclicks 4) as [_ Hclick]; [by apply squareIndices_range|].
      exact Hclick.
Defined.

(** ** The rendered page *)

Lemma moveButtons_lookup g k b :
  moveButtons g !! k = Some b →
  is_Some (history g !! k) ∧ key b = k ∧ jumpTarget b = Z.of_nat k ∧
  description b = (if decide (0 < k)%nat
                   then "Go to move #" +:+ pretty k else "Go to game start").
Proof.
  unfold moveButtons. rewrite list_lookup_imap.
  destruct (history g !! k) as [r|]; simpl; [|done].
  intros Hb. injection Hb as <-. simpl. eauto.
Qed.

Lemma ui_reachable_cursor g :
  ui_reachable g →
  reachable g ∧ 0 ≤ currentMove g < Z.of_nat (length (history g)).
Proof.
  induction 1 as [|g i _ [IHr IHc] Hi|g b _ [IHr IHc] Hb].
  - split; [apply reachable_initial | simpl; lia].
  - apply squareIndices_range in Hi.
    split; [by apply reachable_click|].
    destruct (currentBoard g) as [sq|] eqn:Hsq.
    + destruct (truthy (calculateWinner sq)) eqn:Hw.
      { by rewrite (attemptMove_won g sq i). }
      destruct (truthy (read sq i)) eqn:Hempty.
      { by rewrite (attemptMove_occupied g sq i). }
      rewrite (attemptMove_played g sq i) by done. cbn [snd].
      rewrite (length_history_played g sq i Hsq). simpl. lia.
    + by rewrite attemptMove_undefined.
  - split; [by apply reachable_jump|].
    apply list_elem_of_lookup in Hb as [k Hk].
    apply moveButtons_lookup in Hk as (Hhist & _ & -> & _).
    apply lookup_lt_is_Some in Hhist. simpl. lia.
Qed.

(** X11: in every state the page can be brought to, by clicks on the nine
    squares and on the move buttons shown, the cursor is a position of the
    history and its board is a nine-square board; so the page is rendered,
    and no click on a square throws. *)
Theorem ui_reachable_renders (g : game) :
  ui_reachable g →
  0 ≤ currentMove g < Z.of_nat (length (history g)) ∧
  (∃ sq, currentBoard g = Some sq ∧ is_board sq) ∧
  is_Some (render g) ∧
  ∀ i, (attemptMove g i).1 ≠ TypeError.
Proof.
  intros Hui. destruct (ui_reachable_cursor g Hui) as [Hreach Hm].
  pose proof (reachable_history_ok g Hreach) as Hok.
  destruct (ok_boards g Hok (Z.to_nat (currentMove g))) as (sq & Hat & Hb);
    [lia|].
  assert (currentBoard g = Some sq) as Hsq.
  { rewrite <- Hat, <- (currentBoard_jumpTo g), Z2Nat.id by lia. by destruct g. }
  split; [done|]. split; [eauto|]. split.
  - unfold render. rewrite Hsq. simpl. eauto.
  - intros i. destruct (truthy (calculateWinner sq)) eqn:Hw.
    { by rewrite (attemptMove_won g sq i). }
    destruct (truthy (read sq i)) eqn:Hempty.
    { by rewrite (attemptMove_occupied g sq i). }
    by rewrite (attemptMove_played g sq i).
Qed.

(** Two moves, then the button of move 1. *)
Lemma ui_reachable_renders_witness :
  0 ≤ currentMove (jumpTo centreCornerGame 1)
    < Z.of_nat (length (history (jumpTo centreCornerGame 1))) ∧
  (∃ sq, currentBoard (jumpTo centreCornerGame 1) = Some sq ∧ is_board sq) ∧
  is_Some (render (jumpTo centreCornerGame 1)) ∧
  ∀ i, (attemptMove (jumpTo centreCornerGame 1) i).1 ≠ TypeError.
Proof.
  apply (ui_reachable_renders (jumpTo centreCornerGame 1)).
  apply (ui_button centreCornerGame
           {| key := 1; description := "Go to move #1"; jumpTarget := 1 |}).
  - change (ui_reachable (attemptMove (attemptMove initial 4).2 0).2).
    apply ui_square; [|apply squareIndices_range; lia].
    apply ui_square; [|apply squareIndices_range; lia].
    apply ui_initial.
  - apply list_elem_of_lookup. exists 1%nat. by vm_compute.
Defined.

(** X12: the move list has one button per snapshot of the history; the
    button at position [k] has key [k] and its click makes snapshot [k]
    current; no two buttons share a key or a text. *)
Theorem moveButtons_targets (g : game) :
  length (moveButtons g) = length (history g) ∧
  (∀ k b, moveButtons g !! k = Some b →
     key b = k ∧
     is_Some (history g !! k) ∧
     currentSquares (jumpTo g (jumpTarget b)) = history g !! k ∧
     history (jumpTo g (jumpTarget b)) = history g) ∧
  NoDup (key <$> moveButtons g) ∧
  NoDup (description <$> moveButtons g).
Proof.
  split; [apply length_imap|]. split; [|split].
  - intros k b Hb. apply moveButtons_lookup in Hb as (Hhist & Hkey & -> & _).
    repeat split; try done.
    unfold currentSquares; simpl.
    replace (0 <=? Z.of_nat k) with true by (symmetry; apply Z.leb_le; lia).
    by rewrite Nat2Z.id.
  - apply NoDup_alt. intros i j x. rewrite !list_lookup_fmap.
    destruct (moveButtons g !! i) as [bi|] eqn:Hi; [|done].
    destruct (moveButtons g !! j) as [bj|] eqn:Hj; [|done].
    apply moveButtons_lookup in Hi as (_ & Hki & _).
    apply moveButtons_lookup in Hj as (_ & Hkj & _).
    simpl. congruence.
  - apply NoDup_alt. intros i j x. rewrite !list_lookup_fmap.
    destruct (moveButtons g !! i) as [bi|] eqn:Hi; [|done].
    destruct (moveButtons g !! j) as [bj|] eqn:Hj; [|done].
    apply moveButtons_lookup in Hi as (_ & _ & _ & Hdi).
    apply moveButtons_lookup in Hj as (_ & _ & _ & Hdj).
    simpl. intros Hx Hx'. assert (description bi = description bj) as Heq
      by congruence.
    rewrite Hdi, Hdj in Heq.
    repeat case_decide; try lia; try discriminate Heq.
    by apply String.app_inj, (inj pretty) in Heq.
Qed.

Lemma to_string_nextPlayer x : to_string (nextPlayer x) = if x then "X" else "O".
Proof. by destruct x. Qed.

(** X13: the status line agrees with the handler.  When a line is
    completed it reads "Winner: " followed by the mark of the first
    completed line, and every click is rejected; and whenever a click is
    played, the line had read "Next player: " followed by the mark that
    click put on the board. *)
Theorem status_announces (g : game) (sq : jsarray) :
  currentBoard g = Some sq →
  (∀ k l, first_completed sq k l →
     status (xIsNext g) sq = "Winner: " +:+ to_string (read sq l.1.1) ∧
     ∀ i, attemptMove g i = (Rejected GameAlreadyWon, g)) ∧
  (∀ i r g', attemptMove g i = (Played r, g') →
     ∃ sq', currentBoard g' = Some sq' ∧
            status (xIsNext g) sq = "Next player: " +:+ to_string (read sq' i)).
Proof.
  intros Hsq. split.
  - intros k l Hfirst. pose proof (calculateWinner_first sq k l Hfirst) as Hw.
    assert (truthy (calculateWinner sq) = true) as Ht.
    { rewrite Hw. destruct Hfirst as (_ & (p & Hp & -> & _) & _).
      by destruct Hp as [-> | ->]. }
    split.
    + unfold status. by rewrite Ht, Hw.
    + intros i. by apply (attemptMove_won g sq).
  - intros i r g' Hmove.
    apply attemptMove_Played_inv in Hmove as (sq0 & Hsq0 & Hw & _ & _ & ->).
    assert (sq0 = sq) as -> by congruence.
    destruct (played_currentBoard g sq i Hsq) as [Hcur _].
    eexists. split; [exact Hcur|].
    rewrite read_write_eq. unfold status, turnToMove.
    by rewrite Hw, to_string_nextPlayer.
Qed.

(** The won game reads "Winner: X"; the new game reads "Next player: X". *)
Lemma status_announces_witness :
  status (xIsNext leftColumnGame)
    {| elems := [X; O; Null; X; O; Null; X; Null; Null]; props := ∅ |}
  = "Winner: X".
Proof.
  pose (b := {| elems := [X; O; Null; X; O; Null; X; Null; Null]; props := ∅ |}).
  destruct (status_announces leftColumnGame b) as [Hwon _]; [by vm_compute|].
  destruct (Hwon 3%nat (0, 3, 6)) as [Hstatus _]; [|exact Hstatus].
  split; [reflexivity|]. split; [solve_completed X|].
  intros j l' Hj Hl' (p & Hp & H1 & H2 & H3).
  destruct j as [|[|[|j]]]; [..|lia]; injection Hl' as <-;
    vm_compute in H1, H2, H3; destruct Hp; congruence.
Defined.
